(** * transform.py: the request-builder migration script

    A shallow embedding of [src/transform.py]: the regular expression
    [pattern], the replacement callback [transform_request], the
    substitution pass [re.sub] and the read / rewrite / print script
    around them, followed by the properties of the specification.

    Text is a list of Unicode code points (Python [str]); the regular
    expression is a value of a small syntax whose backtracking matcher
    lists the ways to match in the order Python's engine tries them. *)

From Stdlib Require Import NArith Ascii String.
From stdpp Require Import gmap strings list sorting.

Local Open Scope N_scope.
Local Open Scope list_scope.

(** ** Text *)

Abbreviation text := (list N).

(** The code points of a string literal of the source. *)
Definition txt (s : string) : text :=
  (fun a => N_of_ascii a) <$> list_ascii_of_string s.

(** The newline character, ["\n"] in the source. *)
Definition NL : text := [10].

(** [str.isspace] on one code point, which is what [\s] tests on a
    [str] pattern: the ASCII blanks and separators, NEL, NBSP and the
    Unicode space separators. *)
Definition is_space (c : N) : bool :=
  ((9 <=? c) && (c <=? 13)) || ((28 <=? c) && (c <=? 32))
  || (c =? 133) || (c =? 160) || (c =? 5760)
  || ((8192 <=? c) && (c <=? 8202))
  || (c =? 8232) || (c =? 8233) || (c =? 8239) || (c =? 8287)
  || (c =? 12288).

(** ** Regular expressions, as far as [pattern] uses them *)

Record flags := Flags { multiline : bool; dotall : bool }.

(** One-character items: [.], [\s], a literal, [[...]] and [[^...]]. *)
Inductive cset :=
| Any
| Space
| Is (c : N)
| OneOf (l : text)
| NoneOf (l : text).

Definition accepts (fl : flags) (cs : cset) (c : N) : bool :=
  match cs with
  | Any => dotall fl || negb (c =? 10)
  | Space => is_space c
  | Is d => c =? d
  | OneOf l => bool_decide (c ∈ l)
  | NoneOf l => negb (bool_decide (c ∈ l))
  end.

(** [Lit l] is a run of literal characters, [One cs] one character of a
    class. [Rep greedy lo hi cs] repeats a one-character item between [lo] and
    [hi] times ([None]: unbounded), greedily or lazily; [pattern]
    repeats nothing else. [Grp i r] is the capturing group number [i]. *)
Inductive regex :=
| Lit (l : text)
| One (cs : cset)
| Rep (greedy : bool) (lo : nat) (hi : option nat) (cs : cset)
| Grp (i : nat) (r : regex)
| Cat (r1 r2 : regex).

Abbreviation groups := (gmap nat text).

(** The suffixes a repetition can leave, in the order the engine tries
    them: the longest run first when greedy, the shortest first when
    lazy. *)
Fixpoint reps (fl : flags) (greedy : bool) (lo : nat) (hi : option nat)
    (cs : cset) (s : text) : list text :=
  let stop := match lo with O => [s] | S _ => [] end in
  let more :=
    match s with
    | c :: s' =>
        if accepts fl cs c && negb (bool_decide (hi = Some O))
        then reps fl greedy (Nat.pred lo) (Nat.pred <$> hi) cs s'
        else []
    | [] => []
    end in
  if greedy then more ++ stop else stop ++ more.

(** [run fl r s g]: every way to match [r] at the start of [s], each as
    the text left over and the groups captured, in the engine's order of
    preference (the first is the match, the others are what it falls
    back to). *)
Fixpoint run (fl : flags) (r : regex) (s : text) (g : groups)
    : list (text * groups) :=
  match r with
  | Lit l =>
      if bool_decide (take (length l) s = l) then [(drop (length l) s, g)]
      else []
  | One cs =>
      match s with
      | c :: s' => if accepts fl cs c then [(s', g)] else []
      | [] => []
      end
  | Rep greedy lo hi cs => (fun s' => (s', g)) <$> reps fl greedy lo hi cs s
  | Grp i r =>
      (fun st : text * groups =>
         (st.1, <[i := take (length s - length st.1) s]> st.2))
        <$> run fl r s g
  | Cat r1 r2 => st ← run fl r1 s g; run fl r2 st.1 st.2
  end.

(** A match attempt at the start of [s]. With [must_advance] an empty
    match is refused and the engine backtracks into the next way. *)
Definition match_here (fl : flags) (r : regex) (must_advance : bool)
    (s : text) : option (text * groups) :=
  head (filter
          (fun st : text * groups =>
             must_advance = false ∨ (length st.1 < length s)%nat)
          (run fl r s ∅)).

(** Leftmost match: the text skipped, the groups and the text after the
    match. [must_advance] only holds for the first position tried. *)
Fixpoint search (fl : flags) (r : regex) (must_advance : bool) (s : text)
    : option (text * groups * text) :=
  match match_here fl r must_advance s with
  | Some (rest, g) => Some ([], g, rest)
  | None =>
      match s with
      | [] => None
      | c :: s' =>
          (fun m : text * groups * text => (c :: m.1.1, m.1.2, m.2))
            <$> search fl r false s'
      end
  end.

(** The pieces [re.sub] joins: the text before each match and the
    callback's result for it, then the text after the last match.  After
    an empty match the next search must advance. *)
Fixpoint sub_pieces (fl : flags) (r : regex) (repl : groups → text)
    (fuel : nat) (must_advance : bool) (s : text) : list text :=
  match fuel with
  | O => [s]
  | S fuel' =>
      match search fl r must_advance s with
      | None => [s]
      | Some (pre, g, rest) =>
          pre :: repl g ::
            sub_pieces fl r repl fuel'
              (bool_decide (length pre + length rest = length s)%nat) rest
      end
  end.

(** [re.sub(pattern, repl, s, flags=fl)] with a callable [repl]. Every
    round but the one after an empty match consumes a character, so
    twice the length bounds the rounds. *)
Definition re_sub (fl : flags) (r : regex) (repl : groups → text) (s : text)
    : text :=
  concat (sub_pieces fl r repl (2 * length s + 2) false s).

(** ** The script *)

(** [match.group(i)]; a group that took no part formats as [None]. *)
Definition group (g : groups) (i : nat) : text :=
  default (txt "None") (g !! i).

Definition transform_request (g : groups) : text :=
  let indent := group g 1 in
  let id_val := group g 2 in
  let method := group g 3 in
  let params := group g 4 in
  let result := indent ++ txt "$requestObject = RequestObjectData::from([" ++ NL in
  let result := result ++ indent ++ txt "    'protocol' => VendProtocol::VERSION," ++ NL in
  let result := result ++ indent ++ txt "    'id' => " ++ id_val ++ txt "," ++ NL in
  let result := result ++ indent ++ txt "    'call' => CallData::from([" ++ NL in
  let result := result ++ indent ++ txt "        'function' => " ++ method ++ txt "," ++ NL in
  let result := result ++ indent ++ txt "        'arguments' => " ++ params ++ txt "," ++ NL in
  let result := result ++ indent ++ txt "    ])," ++ NL in
  let result := result ++ indent ++ txt "]);" in
  result.

Infix "⨾" := Cat (at level 60, right associativity).

Definition ws_plus : regex := Rep true 1 None Space.
Definition ws_star : regex := Rep true 0 None Space.
Definition quote : regex := One (OneOf [39; 34]).
Definition no_comma_plus : regex := Rep true 1 None (NoneOf (txt ",")).
Definition any_plus_lazy : regex := Rep false 1 None Any.
Definition comma_opt : regex := Rep true 0 (Some 1%nat) (Is 44).

(** The pattern, item by item as the source spells it. *)
Definition pattern : regex :=
  Grp 1 ws_plus ⨾
  Lit (txt "$requestObject = RequestObjectData::from([") ⨾
  ws_star ⨾ quote ⨾ Lit (txt "jsonrpc") ⨾ quote ⨾
  ws_star ⨾ Lit (txt "=>") ⨾ ws_star ⨾
  quote ⨾ Lit (txt "2.0") ⨾ quote ⨾
  ws_star ⨾ Lit (txt ",") ⨾ ws_star ⨾
  quote ⨾ Lit (txt "id") ⨾ quote ⨾
  ws_star ⨾ Lit (txt "=>") ⨾ ws_star ⨾
  Grp 2 no_comma_plus ⨾ Lit (txt ",") ⨾ ws_star ⨾
  quote ⨾ Lit (txt "method") ⨾ quote ⨾
  ws_star ⨾ Lit (txt "=>") ⨾ ws_star ⨾
  Grp 3 no_comma_plus ⨾ Lit (txt ",") ⨾ ws_star ⨾
  quote ⨾ Lit (txt "params") ⨾ quote ⨾
  ws_star ⨾ Lit (txt "=>") ⨾ ws_star ⨾
  Grp 4 any_plus_lazy ⨾ comma_opt ⨾ ws_star ⨾ Lit (txt "]);").

(** [flags=re.MULTILINE | re.DOTALL] *)
Definition script_flags : flags := Flags true true.

(** [re.sub(pattern, transform_request, content, flags=...)] *)
Definition transform (content : text) : text :=
  re_sub script_flags pattern transform_request content.

(** *** Files and standard output

    A file holds its characters as they are stored, line ends included;
    how characters are encoded into bytes is below this model. Both
    [open] calls of the script are in text mode with the default
    [newline=None]. *)

Record file := File { readable : bool; writable : bool; content : text }.

(** The files, the lines printed so far, and the writes completed so
    far (path and text handed to [f.write]), oldest first. *)
Record world := World {
  fs : gmap string file;
  stdout : list text;
  written : list (string * text)
}.

(** What reading in text mode does to line ends: ["\r\n"] and a lone
    ["\r"] both come out as ["\n"]. *)
Fixpoint universal_newlines (s : text) : text :=
  match s with
  | [] => []
  | c :: s' =>
      if c =? 13
      then 10 :: match s' with
                 | 10 :: s'' => universal_newlines s''
                 | _ => universal_newlines s'
                 end
      else c :: universal_newlines s'
  end.

Inductive os_error := FileNotFoundError | PermissionError.

(** A computation on the world that either raises or returns. *)
Definition io (A : Type) : Type := world → (os_error + A) * world.

Definition io_ret {A} (a : A) : io A := fun w => (inr a, w).

Definition io_bind {A B} (m : io A) (k : A → io B) : io B :=
  fun w =>
    match m w with
    | (inl e, w') => (inl e, w')
    | (inr a, w') => k a w'
    end.

Notation "x ←io m ;; k" := (io_bind m (fun x => k))
  (at level 100, m at next level, right associativity).

(** [with open(p, 'r') as f: f.read()]: the stored characters with
    their line ends translated. *)
Definition read_text (p : string) : io text :=
  fun w =>
    match fs w !! p with
    | None => (inl FileNotFoundError, w)
    | Some f =>
        if readable f then (inr (universal_newlines (content f)), w)
        else (inl PermissionError, w)
    end.

(** [with open(p, 'w') as f: f.write(c)]: an existing file must be
    writable and gets the new content; a missing one is created. On
    writing, text mode turns ["\n"] into [os.linesep], which is ["\n"]
    again on the system the path of the script belongs to, so [c] is
    stored as it is. *)
Definition write_text (p : string) (c : text) : io unit :=
  fun w =>
    match fs w !! p with
    | None =>
        (inr (), World (<[p := File true true c]> (fs w)) (stdout w)
                       (written w ++ [(p, c)]))
    | Some f =>
        if writable f
        then (inr (), World (<[p := File (readable f) true c]> (fs w))
                            (stdout w) (written w ++ [(p, c)]))
        else (inl PermissionError, w)
    end.

(** [print(line)] *)
Definition print (line : text) : io unit :=
  fun w => (inr (), World (fs w) (stdout w ++ [line]) (written w)).

Definition target : string :=
  "/Users/brian/Developer/cline/vend/tests/Unit/Jobs/CallFunctionTest.php".

Definition done_message : text := txt "Transformation complete!".

(** The script, top to bottom. *)
Definition script : io unit :=
  content ←io read_text target ;;
  _ ←io write_text target (transform content) ;;
  print done_message.

(** ** Vocabulary of the specification *)

(** The matches [re.finditer] reports: for each, the text skipped before
    it, its groups and the text after it. *)
Fixpoint finditer (fl : flags) (r : regex) (fuel : nat) (must_advance : bool)
    (s : text) : list (text * groups * text) :=
  match fuel with
  | O => []
  | S fuel' =>
      match search fl r must_advance s with
      | None => []
      | Some (pre, g, rest) =>
          (pre, g, rest) ::
            finditer fl r fuel'
              (bool_decide (length pre + length rest = length s)%nat) rest
      end
  end.

(** The occurrences of the pattern in a text. *)
Definition occurrences (t : text) : list (text * groups * text) :=
  finditer script_flags pattern (2 * length t + 2) false t.

(** The opening every call site starts with, after its indentation. *)
Definition opening : text := txt "$requestObject = RequestObjectData::from([".

(** The closing of a call site. *)
Definition closing : text := txt "]);".

(** How a call site is laid out: the whitespace runs between its tokens
    and the quote characters around its keys, numbered in the order they
    appear, and whether a comma follows the params. *)
Record layout := Layout {
  sp : nat → text;
  qt : nat → N;
  trailing_comma : bool }.

Definition is_quote (c : N) : Prop := c = 39 ∨ c = 34.

Definition wf_layout (L : layout) : Prop :=
  (∀ k, Forall (fun c => is_space c = true) (sp L k)) ∧ (∀ k, is_quote (qt L k)).

(** A quoted key followed by its arrow. *)
Definition key (L : layout) (q s : nat) (name : text) : text :=
  [qt L q] ++ name ++ [qt L (S q)] ++ sp L s ++ txt "=>" ++ sp L (S s).

(** The old call shape: indentation, opening, the jsonrpc marker, id,
    method and params, closing. *)
Definition call_site (L : layout) (ind i m p : text) : text :=
  ind ++ opening ++ sp L 0 ++
  key L 0 1 (txt "jsonrpc") ++
  [qt L 2] ++ txt "2.0" ++ [qt L 3] ++ sp L 3 ++ txt "," ++ sp L 4 ++
  key L 4 5 (txt "id") ++ i ++ txt "," ++ sp L 7 ++
  key L 6 8 (txt "method") ++ m ++ txt "," ++ sp L 10 ++
  key L 8 11 (txt "params") ++ p ++
  (if trailing_comma L then txt "," else []) ++ sp L 13 ++ closing.

(** The layout the fixture uses: single quotes, one blank around arrows
    and after commas. *)
Definition plain (tc : bool) : layout :=
  Layout
    (fun k => if bool_decide (k ∈ [0; 3; 13]%nat) then [] else txt " ")
    (fun _ => 39) tc.

(** The lines of the nested two-object form, before indentation. *)
Definition nested_lines (i m p : text) : list text :=
  [ txt "$requestObject = RequestObjectData::from([";
    txt "    'protocol' => VendProtocol::VERSION,";
    txt "    'id' => " ++ i ++ txt ",";
    txt "    'call' => CallData::from([";
    txt "        'function' => " ++ m ++ txt ",";
    txt "        'arguments' => " ++ p ++ txt ",";
    txt "    ]),";
    txt "]);" ].

(** Lines joined by newlines, none after the last. *)
Fixpoint join_lines (ls : list text) : text :=
  match ls with
  | [] => []
  | [l] => l
  | l :: ls' => l ++ NL ++ join_lines ls'
  end.

(** The nested form with every line prefixed by [ind]. *)
Definition nested (ind i m p : text) : text :=
  join_lines ((fun l => ind ++ l) <$> nested_lines i m p).

(** The groups a match reports. *)
Definition captured (ind i m p : text) : groups :=
  <[4%nat := p]> (<[3%nat := m]> (<[2%nat := i]> (<[1%nat := ind]> ∅))).

(** What the pattern demands of the captured texts. *)
Definition captures_ok (ind i m p : text) : Prop :=
  ind ≠ [] ∧ Forall (fun c => is_space c = true) ind ∧
  i ≠ [] ∧ (44 ∉ i) ∧ m ≠ [] ∧ (44 ∉ m) ∧ p ≠ [].

(** [w] occurs somewhere in [t]. *)
Definition occurs (w t : text) : Prop := ∃ a b, t = a ++ w ++ b.

(** The leftmost match, the way the script searches. *)
Definition find (t : text) : option (text * groups * text) :=
  search script_flags pattern false t.

(** One of the four keys, in either kind of quotes, occurs in [t]. *)
Definition has_key (name t : text) : Prop :=
  ∃ q1 q2, is_quote q1 ∧ is_quote q2 ∧ occurs ([q1] ++ name ++ [q2]) t.

(** The key names, in the order the pattern wants them. *)
Definition key_names : list text :=
  [txt "jsonrpc"; txt "id"; txt "method"; txt "params"].

(** [occurs], decided. *)
Fixpoint occursb (w t : text) : bool :=
  bool_decide (take (length w) t = w) ||
  match t with
  | [] => false
  | _ :: t' => occursb w t'
  end.

(** A text cut into stretches, each followed by a span, and a tail. *)
Fixpoint apart (ps : list (text * text)) (tail : text) : text :=
  match ps with
  | [] => tail
  | (pre, span) :: ps' => pre ++ span ++ apart ps' tail
  end.

(** The same text with every span transformed on its own. *)
Fixpoint each_replaced (ps : list (text * text)) (tail : text) : text :=
  match ps with
  | [] => tail
  | (pre, span) :: ps' => pre ++ transform span ++ each_replaced ps' tail
  end.

(** The span [ps.2], after the stretch [ps.1], is the call site of the
    occurrence [o]; alone it transforms into the nested form, and the
    stretch alone is left as it is. *)
Definition replaced_alone (o : text * groups * text) (ps : text * text) : Prop :=
  o.1.1 = ps.1 ∧ transform ps.1 = ps.1 ∧
  ∃ L ind i m p, wf_layout L ∧ captures_ok ind i m p ∧
    o.1.2 = captured ind i m p ∧
    ps.2 = call_site L ind i m p ∧ transform ps.2 = nested ind i m p.

(** An expression written without blanks in front. *)
Definition starts_solid (w : text) : Prop :=
  match w with c :: _ => is_space c = false | [] => False end.

(** An expression that does not end in a blank or a comma. *)
Definition ends_solid (w : text) : Prop :=
  match last w with Some c => is_space c = false ∧ c ≠ 44 | None => False end.

(** A well-formed call site: the captured texts are what the pattern
    demands, the three expressions carry no blanks in front, and the
    params expression neither ends in a blank or a comma nor contains
    the closing of the call. *)
Definition well_formed_call (ind i m p : text) : Prop :=
  captures_ok ind i m p ∧ starts_solid i ∧ starts_solid m ∧ starts_solid p ∧
  ends_solid p ∧ ¬ occurs closing p.

(** The same layout with or without the comma after the params. *)
Definition with_comma (L : layout) (tc : bool) : layout :=
  Layout (sp L) (qt L) tc.

(** The text before a call site: it names no other [$requestObject] and
    does not end in whitespace (the indentation is all of it). *)
Definition quiet_before (pre : text) : Prop :=
  ¬ occurs (txt "$requestObject") pre ∧
  match last pre with Some c => is_space c = false | None => True end.

(** What ends the params: an optional comma, whitespace, the closing. *)
Definition terminator : regex :=
  comma_opt ⨾ ws_star ⨾ Lit (txt "]);").

(** Commas and whitespace, the characters the terminator skips. *)
Definition soft (c : N) : Prop := c = 44 ∨ is_space c = true.

(** The first character of a text that is not whitespace. *)
Fixpoint next_solid (s : text) : option N :=
  match s with
  | [] => None
  | c :: s' => if is_space c then next_solid s' else Some c
  end.

(** The pattern from the whitespace before the id group onwards. *)
Definition id_onwards : regex :=
  ws_star ⨾
  Grp 2 no_comma_plus ⨾ Lit (txt ",") ⨾ ws_star ⨾
  quote ⨾ Lit (txt "method") ⨾ quote ⨾
  ws_star ⨾ Lit (txt "=>") ⨾ ws_star ⨾
  Grp 3 no_comma_plus ⨾ Lit (txt ",") ⨾ ws_star ⨾
  quote ⨾ Lit (txt "params") ⨾ quote ⨾
  ws_star ⨾ Lit (txt "=>") ⨾ ws_star ⨾
  Grp 4 any_plus_lazy ⨾ comma_opt ⨾ ws_star ⨾ Lit (txt "]);").

(** A call site from the comma after its id onwards. *)
Definition after_id (L : layout) (m p : text) : text :=
  txt "," ++ sp L 7 ++
  key L 6 8 (txt "method") ++ m ++ txt "," ++ sp L 10 ++
  key L 8 11 (txt "params") ++ p ++
  (if trailing_comma L then txt "," else []) ++ sp L 13 ++ closing.

(** The text before a call site: the opening of a call is nowhere in
    it, and it does not end in whitespace (the indentation is all of
    it). It may mention [$requestObject]. *)
Definition calm_before (pre : text) : Prop :=
  ¬ occurs opening pre ∧
  match last pre with Some c => is_space c = false | None => True end.

(** Every blank of [v] is followed by a character that is neither a
    blank nor [$]. *)
Fixpoint blank_then_solid (v : text) : bool :=
  match v with
  | [] => true
  | c :: v' =>
      (if is_space c
       then match v' with
            | c1 :: _ => negb (is_space c1) && negb (c1 =? 36)
            | [] => false
            end
       else true) && blank_then_solid v'
  end.

(** A call site with the text in front of it. *)
Record site := Site {
  s_before : text;
  s_layout : layout;
  s_indent : text;
  s_id : text;
  s_method : text;
  s_params : text
}.

Definition site_text (s : site) : text :=
  call_site (s_layout s) (s_indent s) (s_id s) (s_method s) (s_params s).

Definition site_nested (s : site) : text :=
  nested (s_indent s) (s_id s) (s_method s) (s_params s).

Definition site_ok (s : site) : Prop :=
  wf_layout (s_layout s) ∧
  well_formed_call (s_indent s) (s_id s) (s_method s) (s_params s) ∧
  calm_before (s_before s).

(** A text made of call sites, each after its stretch, and a tail. *)
Fixpoint laid_out (ss : list site) (tail : text) : text :=
  match ss with
  | [] => tail
  | s :: ss' => s_before s ++ site_text s ++ laid_out ss' tail
  end.

(** The same text with the nested form in place of every call site. *)
Fixpoint rewritten (ss : list site) (tail : text) : text :=
  match ss with
  | [] => tail
  | s :: ss' => s_before s ++ site_nested s ++ rewritten ss' tail
  end.

(** The matches to expect in [laid_out ss tail] before its tail. *)
Fixpoint found (ss : list site) (tail : text) : list (text * groups * text) :=
  match ss with
  | [] => []
  | s :: ss' =>
      (s_before s,
       captured (s_indent s) (s_id s) (s_method s) (s_params s),
       laid_out ss' tail) :: found ss' tail
  end.




(** [str.lstrip] as far as whitespace goes. *)
Fixpoint lstrip (w : text) : text :=
  match w with
  | [] => []
  | c :: w' => if is_space c then lstrip w' else w
  end.

(** The blanks [lstrip] drops. *)
Definition lead (w : text) : text := take (length w - length (lstrip w)) w.

(** The layout [L] with the blanks [a], [b] and [c] added after the
    arrows of the id, the method and the params. *)
Definition padded (L : layout) (a b c : text) : layout :=
  Layout (fun j => if bool_decide (j = 6%nat) then sp L j ++ a
                   else if bool_decide (j = 9%nat) then sp L j ++ b
                   else if bool_decide (j = 12%nat) then sp L j ++ c
                   else sp L j)
         (qt L) (trailing_comma L).

(** A call whose id expression holds a comma and, after it, what reads
    as the rest of a call. *)
Definition comma_id : text := txt "array(1, 'method' => 2, 'params' => 3)".

Definition comma_id_call : text :=
  call_site (plain false) (txt "    ") comma_id (txt "'foo'") (txt "$args").

(** The word the pattern wants right inside the call and the template
    never writes. *)
Definition marker : text := txt "jsonrpc".

(** The text after the last occurrence, all of it when there is none. *)
Definition last_rest (t : text) : text :=
  match last (occurrences t) with
  | Some (_, _, rest) => rest
  | None => t
  end.

(** What the transform copies from [t] into its output (the text
    between the occurrences, the id, method and params of each, the text
    after the last) is free of the marker. *)
Definition copies_clean (t : text) : Prop :=
  (∀ pre g rest, (pre, g, rest) ∈ occurrences t →
     ¬ occurs marker pre ∧ ¬ occurs marker (group g 2) ∧
     ¬ occurs marker (group g 3) ∧ ¬ occurs marker (group g 4)) ∧
  ¬ occurs marker (last_rest t).

(** A call whose params hold another call of the old shape. *)
Definition call_in_params : text :=
  txt " $requestObject = RequestObjectData::from(['jsonrpc' => '2.0', 'id' => a, 'method' => b, 'params' => [ $requestObject = RequestObjectData::from(['jsonrpc' => '2.0', 'id' => 1, 'method' => 2, 'params' => 3]);".

Definition sample_in : text :=
  txt "    $requestObject = RequestObjectData::from(['jsonrpc' => '2.0', 'id' => $id, 'method' => 'foo', 'params' => $args]);".

Definition sample_out : text :=
  txt "    $requestObject = RequestObjectData::from([" ++ NL ++
  txt "        'protocol' => VendProtocol::VERSION," ++ NL ++
  txt "        'id' => $id," ++ NL ++
  txt "        'call' => CallData::from([" ++ NL ++
  txt "            'function' => 'foo'," ++ NL ++
  txt "            'arguments' => $args," ++ NL ++
  txt "        ])," ++ NL ++
  txt "    ]);".

(** Two calls on consecutive lines, the second with a comma inside and
    after its params. *)
Definition two_calls : text :=
  sample_in ++ NL ++
  txt "    $requestObject = RequestObjectData::from(['jsonrpc' => '2.0', 'id' => 7, 'method' => 'bar', 'params' => [1, 2],]);".





Definition quiet_world : world :=
  World {[ target := File true true (txt "<?php echo 1;") ]} [] [].

(** A text with Windows line ends and no call in it, and a world whose
    target holds it. *)
Definition crlf_text : text :=
  txt "<?php" ++ [13; 10] ++ txt "echo 1;" ++ [13; 10].

Definition crlf_world : world :=
  World {[ target := File true true crlf_text ]} [] [].

Definition column_zero_in : text :=
  txt "$requestObject = RequestObjectData::from(['jsonrpc' => '2.0', 'id' => $id, 'method' => 'foo', 'params' => $args]);".

(** A call whose id is a single blank. *)
Definition blank_id_call : text :=
  txt "    $requestObject = RequestObjectData::from(['jsonrpc' => '2.0', 'id' => , 'method' => 'foo', 'params' => $args]);".

(** A call whose params start with the closing. *)
Definition closing_first_call : text :=
  txt "    $requestObject = RequestObjectData::from(['jsonrpc' => '2.0', 'id' => 1, 'method' => 'foo', 'params' => ]);x]);".

(** The old call shape assigned to another variable. *)
Definition other_variable_call : text :=
  txt "    $request = RequestObjectData::from(['jsonrpc' => '2.0', 'id' => 1, 'method' => 'm', 'params' => []]);".

(** A layout with double quotes, two blanks in every gap and a comma
    after the params. *)
Definition roomy : layout := Layout (fun _ => txt "  ") (fun _ => 34) true.

(** The sample call after an opening tag. *)
Definition tagged_sample : text := txt "<?php" ++ NL ++ sample_in.

(** A world with the target and one more file. *)
Definition busy_world : world :=
  World {[ target := File true true sample_in;
           "notes.txt" := File true false (txt "keep") ]} [] [].

(** The two call sites of [two_calls]. *)
Definition sample_site : site :=
  Site [] (plain false) (txt "    ") (txt "$id") (txt "'foo'") (txt "$args").

Definition two_sites : list site :=
  [ sample_site;
    Site [] (plain true) (NL ++ txt "    ") (txt "7") (txt "'bar'") (txt "[1, 2]") ].


(** The sample call with a blank after its params, with and without
    the comma: [$args ,]);] and [$args ]);]. *)
Definition blank_comma_call (tc : bool) : text :=
  call_site (plain tc) (txt "    ") (txt "$id") (txt "'foo'") (txt "$args ").

Arguments txt : simpl never.

(** ** The matcher *)

Section Matcher.
Context (fl : flags).

(** What a repetition can leave: the text after any run of accepted
    characters whose length is within the bounds. *)
Lemma reps_elem greedy cs s' s lo hi :
  s' ∈ reps fl greedy lo hi cs s ↔
  ∃ w, s = w ++ s' ∧ Forall (fun c => accepts fl cs c = true) w ∧
       (lo ≤ length w)%nat ∧ (∀ h, hi = Some h → (length w ≤ h)%nat).
Proof.
  revert lo hi. induction s as [|c s IH]; intros lo hi.
  - simpl. destruct greedy, lo; simpl; rewrite ?elem_of_nil, ?list_elem_of_singleton.
    all: split; [intros H | intros (w & Hw & Hf & Hlo & Hhi)].
    all: try (subst; exists []; repeat split; auto; simpl; intros; lia).
    all: try (symmetry in Hw; apply app_eq_nil in Hw as [-> ->]; simpl in *; try lia; auto).
    all: try done.
  - cbn [reps].
    assert (Hmore :
      s' ∈ (if accepts fl cs c && negb (bool_decide (hi = Some O))
            then reps fl greedy (Nat.pred lo) (Nat.pred <$> hi) cs s else []) ↔
      ∃ w, c :: s = (c :: w) ++ s' ∧ Forall (fun c => accepts fl cs c = true) (c :: w) ∧
           (lo ≤ length (c :: w))%nat ∧ (∀ h, hi = Some h → (length (c :: w) ≤ h)%nat)).
    { destruct (accepts fl cs c) eqn:Hc; simpl.
      - case_bool_decide as Hhi; simpl.
        + rewrite elem_of_nil. split; [done|]. intros (w & _ & _ & _ & Hh).
          specialize (Hh _ Hhi). simpl in Hh. lia.
        + rewrite IH. split; intros (w & Hw & Hf & Hlo & Hh); exists w.
          * subst. repeat split; auto. { simpl; lia. }
            intros h ->. simpl in *. destruct h; [done|].
            specialize (Hh h eq_refl). lia.
          * simplify_eq/=. inversion Hf; subst. repeat split; auto. { lia. }
            intros h Heq. destruct hi as [h'|]; simplify_eq/=.
            specialize (Hh h' eq_refl). lia.
      - rewrite elem_of_nil. split; [done|]. intros (w & _ & Hf & _).
        inversion Hf; congruence. }
    assert (Hstop : s' ∈ match lo with O => [c :: s] | S _ => [] end ↔
                    (s' = c :: s ∧ lo = O)).
    { destruct lo; [rewrite list_elem_of_singleton | rewrite elem_of_nil].
      - split; [intros ->; auto | intros [-> _]; auto].
      - split; [done | intros [_ ?]; done]. }
    assert (Hgoal : (s' ∈ (if accepts fl cs c && negb (bool_decide (hi = Some O))
            then reps fl greedy (Nat.pred lo) (Nat.pred <$> hi) cs s else []) ∨
            s' ∈ match lo with O => [c :: s] | S _ => [] end) ↔
      ∃ w, c :: s = w ++ s' ∧ Forall (fun c => accepts fl cs c = true) w ∧
       (lo ≤ length w)%nat ∧ (∀ h, hi = Some h → (length w ≤ h)%nat)).
    { rewrite Hmore, Hstop. split.
      - intros [(w & H) | [-> ->]]; [by exists (c :: w)|].
        exists []. repeat split; auto. simpl; intros; lia.
      - intros ([|c' w] & Hw & Hf & Hlo & Hh).
        + right. simpl in *. split; [done | lia].
        + left. simplify_eq/=. by exists w. }
    destruct greedy; rewrite elem_of_app;
      [|rewrite (comm _ (_ ∈ match lo with O => _ | S _ => _ end))]; exact Hgoal.
Qed.

Lemma run_lit_elem l s g s' g' :
  (s', g') ∈ run fl (Lit l) s g ↔ s = l ++ s' ∧ g' = g.
Proof.
  simpl. case_bool_decide as H.
  - rewrite list_elem_of_singleton. split.
    + intros [= -> ->]. split; [|done]. by rewrite <- H at 1; rewrite take_drop.
    + intros [-> ->]. by rewrite drop_app_length.
  - rewrite elem_of_nil. split; [done|]. intros [-> _].
    by rewrite take_app_length in H.
Qed.

Lemma run_one_elem cs s g s' g' :
  (s', g') ∈ run fl (One cs) s g ↔
  ∃ c, s = c :: s' ∧ accepts fl cs c = true ∧ g' = g.
Proof.
  simpl. destruct s as [|c s].
  - rewrite elem_of_nil. split; [done | by intros (? & ? & _)].
  - destruct (accepts fl cs c) eqn:Hc.
    + rewrite list_elem_of_singleton. split.
      * intros [= -> ->]. by exists c.
      * intros (c' & [= <- <-] & _ & ->). done.
    + rewrite elem_of_nil. split; [done|].
      intros (c' & [= <- <-] & ? & _). congruence.
Qed.

Lemma run_rep_elem greedy lo hi cs s g s' g' :
  (s', g') ∈ run fl (Rep greedy lo hi cs) s g ↔
  g' = g ∧ ∃ w, s = w ++ s' ∧ Forall (fun c => accepts fl cs c = true) w ∧
       (lo ≤ length w)%nat ∧ (∀ h, hi = Some h → (length w ≤ h)%nat).
Proof.
  simpl. rewrite list_elem_of_fmap. setoid_rewrite reps_elem. split.
  - intros (x & [= -> ->] & H). auto.
  - intros [-> H]. by exists s'.
Qed.

Lemma run_cat_elem r1 r2 s g s' g' :
  (s', g') ∈ run fl (r1 ⨾ r2) s g ↔
  ∃ s1 g1, (s1, g1) ∈ run fl r1 s g ∧ (s', g') ∈ run fl r2 s1 g1.
Proof.
  simpl. rewrite list_elem_of_bind. split.
  - intros ([s1 g1] & H2 & H1). by exists s1, g1.
  - intros (s1 & g1 & H1 & H2). by exists (s1, g1).
Qed.

(** A match only ever consumes a prefix. *)
Lemma run_suffix r s g s' g' :
  (s', g') ∈ run fl r s g → ∃ w, s = w ++ s'.
Proof.
  revert s g s' g'. induction r as [l|cs|gr lo hi cs|i r IH|r1 IH1 r2 IH2];
    intros s g s' g'.
  - rewrite run_lit_elem. intros [-> _]. by exists l.
  - rewrite run_one_elem. intros (c & -> & _). by exists [c].
  - rewrite run_rep_elem. intros (_ & w & -> & _). by exists w.
  - simpl. rewrite list_elem_of_fmap. intros ([s1 g1] & [= -> ->] & H).
    by apply IH in H.
  - rewrite run_cat_elem. intros (s1 & g1 & H1 & H2).
    apply IH1 in H1 as [w1 ->]. apply IH2 in H2 as [w2 ->].
    exists (w1 ++ w2). by rewrite <- app_assoc.
Qed.

Lemma run_grp_elem i r s g s' g' :
  (s', g') ∈ run fl (Grp i r) s g ↔
  ∃ w g1, s = w ++ s' ∧ (s', g1) ∈ run fl r s g ∧ g' = <[i := w]> g1.
Proof.
  simpl. rewrite list_elem_of_fmap. split.
  - intros ([s1 g1] & [= -> ->] & H). simpl.
    destruct (run_suffix _ _ _ _ _ H) as [w ->].
    exists w, g1. repeat split; [done|].
    rewrite length_app. replace (length w + length s1 - length s1)%nat
      with (length w) by lia. by rewrite take_app_length.
  - intros (w & g1 & -> & H & ->). exists (s', g1). split; [|done]. simpl.
    rewrite length_app. replace (length w + length s' - length s')%nat
      with (length w) by lia. by rewrite take_app_length.
Qed.

(** Without [must_advance] the match is the first way. *)
Lemma match_here_head r s :
  match_here fl r false s = head (run fl r s ∅).
Proof.
  unfold match_here. f_equal. induction (run fl r s ∅) as [|x l IH]; [done|].
  rewrite filter_cons_True by auto. by rewrite IH.
Qed.

End Matcher.

(** ** What the pattern matches *)

Lemma accepts_space fl c : accepts fl Space c = is_space c.
Proof. done. Qed.

Lemma accepts_quote fl c : accepts fl (OneOf [39; 34]) c = true ↔ is_quote c.
Proof.
  simpl. rewrite bool_decide_eq_true. unfold is_quote.
  rewrite !elem_of_cons, elem_of_nil. tauto.
Qed.

Lemma accepts_no_comma fl c : accepts fl (NoneOf (txt ",")) c = true ↔ c ≠ 44.
Proof.
  simpl. rewrite negb_true_iff, bool_decide_eq_false.
  change (txt ",") with [44]. rewrite list_elem_of_singleton. tauto.
Qed.

Lemma accepts_any c : accepts script_flags Any c = true.
Proof. done. Qed.

Lemma ws_star_elem fl s g s' g' :
  (s', g') ∈ run fl ws_star s g ↔
  g' = g ∧ ∃ w, s = w ++ s' ∧ Forall (fun c => is_space c = true) w.
Proof.
  unfold ws_star. rewrite run_rep_elem. split.
  - intros (-> & w & -> & Hw & _). eauto.
  - intros (-> & w & -> & Hw). split; [done|]. exists w.
    repeat split; auto. { simpl; lia. } done.
Qed.

Lemma quote_elem fl s g s' g' :
  (s', g') ∈ run fl quote s g ↔ g' = g ∧ ∃ c, s = c :: s' ∧ is_quote c.
Proof.
  unfold quote. rewrite run_one_elem. setoid_rewrite accepts_quote.
  split; [intros (c & -> & ? & ->) | intros (-> & c & -> & ?)]; eauto.
Qed.

Lemma grp_rep_elem fl i greedy lo hi cs s g s' g' :
  (s', g') ∈ run fl (Grp i (Rep greedy lo hi cs)) s g ↔
  ∃ w, s = w ++ s' ∧ g' = <[i := w]> g ∧
       Forall (fun c => accepts fl cs c = true) w ∧
       (lo ≤ length w)%nat ∧ (∀ h, hi = Some h → (length w ≤ h)%nat).
Proof.
  rewrite run_grp_elem. setoid_rewrite run_rep_elem. split.
  - intros (w & g1 & -> & (-> & w' & Hw' & H) & ->).
    apply app_inv_tail in Hw' as <-. by exists w.
  - intros (w & -> & -> & H). exists w, g. repeat split; auto. by exists w.
Qed.

Lemma comma_opt_elem fl s g s' g' :
  (s', g') ∈ run fl comma_opt s g ↔
  g' = g ∧ ∃ tc : bool, s = (if tc then txt "," else []) ++ s'.
Proof.
  unfold comma_opt. rewrite run_rep_elem. split.
  - intros (-> & w & -> & Hw & _ & Hh). split; [done|].
    specialize (Hh 1%nat eq_refl). destruct w as [|c [|]]; simpl in Hh; try lia.
    + by exists false.
    + exists true. inversion Hw as [|?? Hc _]; subst. simpl in Hc.
      apply N.eqb_eq in Hc as ->. done.
  - intros (-> & [] & ->); (split; [done|]).
    + exists [44]. repeat split; auto; simpl; try lia.
      all: try (intros h [= <-]; lia).
    + exists []. repeat split; auto; simpl; try lia.
      all: try (intros h [= <-]; lia).
Qed.

Lemma nonempty_length {A} (w : list A) : (1 ≤ length w)%nat ↔ w ≠ [].
Proof. destruct w; simpl; split; intros; (done || lia). Qed.

Lemma no_comma_forall (w : text) :
  Forall (fun c => accepts script_flags (NoneOf (txt ",")) c = true) w ↔ 44 ∉ w.
Proof.
  rewrite Forall_forall. setoid_rewrite accepts_no_comma. split.
  - intros H Hin. by apply (H _ Hin).
  - intros H c Hc ->. done.
Qed.

Ltac next_item H H1 :=
  apply run_cat_elem in H as (? & ? & H1 & H).
Ltac next_ws H w Hw :=
  let H1 := fresh "H1" in
  next_item H H1; apply ws_star_elem in H1 as (-> & w & -> & Hw).
Ltac next_quote H q Hq :=
  let H1 := fresh "H1" in
  next_item H H1; apply quote_elem in H1 as (-> & q & -> & Hq).
Ltac next_lit H :=
  let H1 := fresh "H1" in
  next_item H H1; apply run_lit_elem in H1 as [-> ->].
Ltac next_grp H w Hw Hlen :=
  let H1 := fresh "H1" in
  next_item H H1; apply grp_rep_elem in H1 as (w & -> & -> & Hw & Hlen & _).

(** Every way the pattern matches at the start of a text reads a call
    site there, and reports its indentation, id, method and params. *)
Lemma pattern_sound s rest g :
  (rest, g) ∈ run script_flags pattern s ∅ →
  ∃ L ind i m p, wf_layout L ∧ captures_ok ind i m p ∧
    s = call_site L ind i m p ++ rest ∧ g = captured ind i m p.
Proof.
  intros H. unfold pattern, no_comma_plus, any_plus_lazy, ws_plus in H.
  next_grp H ind Hind Hindl. next_lit H.
  next_ws H w0 Hw0. next_quote H q0 Hq0. next_lit H. next_quote H q1 Hq1.
  next_ws H w1 Hw1. next_lit H. next_ws H w2 Hw2.
  next_quote H q2 Hq2. next_lit H. next_quote H q3 Hq3.
  next_ws H w3 Hw3. next_lit H. next_ws H w4 Hw4.
  next_quote H q4 Hq4. next_lit H. next_quote H q5 Hq5.
  next_ws H w5 Hw5. next_lit H. next_ws H w6 Hw6.
  next_grp H i Hi Hil. next_lit H. next_ws H w7 Hw7.
  next_quote H q6 Hq6. next_lit H. next_quote H q7 Hq7.
  next_ws H w8 Hw8. next_lit H. next_ws H w9 Hw9.
  next_grp H m Hm Hml. next_lit H. next_ws H w10 Hw10.
  next_quote H q8 Hq8. next_lit H. next_quote H q9 Hq9.
  next_ws H w11 Hw11. next_lit H. next_ws H w12 Hw12.
  next_grp H p Hp Hpl.
  let H1 := fresh "H1" in
  next_item H H1; apply comma_opt_elem in H1 as (-> & tc & ->).
  next_ws H w13 Hw13. apply run_lit_elem in H as [-> ->].
  exists (Layout
            (fun k => match k with
                      | 0 => w0 | 1 => w1 | 2 => w2 | 3 => w3 | 4 => w4
                      | 5 => w5 | 6 => w6 | 7 => w7 | 8 => w8 | 9 => w9
                      | 10 => w10 | 11 => w11 | 12 => w12 | _ => w13
                      end%nat)
            (fun k => match k with
                      | 0 => q0 | 1 => q1 | 2 => q2 | 3 => q3 | 4 => q4
                      | 5 => q5 | 6 => q6 | 7 => q7 | 8 => q8 | _ => q9
                      end%nat) tc), ind, i, m, p.
  split; [|split; [|split]].
  - split; intros k; simpl.
    + do 13 (destruct k as [|k]; [assumption|]). assumption.
    + do 9 (destruct k as [|k]; [assumption|]). assumption.
  - unfold captures_ok. rewrite <- !nonempty_length.
    apply no_comma_forall in Hi, Hm. repeat split; auto.
  - unfold call_site, key, opening, closing. cbn [sp qt trailing_comma].
    rewrite <- !app_assoc. reflexivity.
  - reflexivity.
Qed.

Ltac put_item := apply run_cat_elem; eexists _, _; split.

(** Conversely every call site is a way for the pattern to match. *)
Lemma pattern_complete L ind i m p rest :
  wf_layout L → captures_ok ind i m p →
  (rest, captured ind i m p) ∈
    run script_flags pattern (call_site L ind i m p ++ rest) ∅.
Proof.
  intros [Hsp Hqt] (Hind & Hws & Hi & Hic & Hm & Hmc & Hp).
  apply nonempty_length in Hind, Hi, Hm, Hp. apply no_comma_forall in Hic, Hmc.
  unfold call_site, key, opening, closing, captured.
  rewrite <- !app_assoc. cbn [app].
  unfold pattern, no_comma_plus, any_plus_lazy, ws_plus.
  repeat first
    [ apply run_lit_elem; split; reflexivity
    | put_item;
      [ first
          [ apply run_lit_elem; split; reflexivity
          | apply ws_star_elem; split; [reflexivity|];
            eexists; split; [reflexivity | apply Hsp]
          | apply quote_elem; split; [reflexivity|];
            eexists; split; [reflexivity | apply Hqt]
          | apply comma_opt_elem; split; [reflexivity|];
            exists (trailing_comma L); reflexivity
          | apply grp_rep_elem; eexists; split; [reflexivity|];
            split; [reflexivity|];
            split; [first [eassumption | by apply Forall_forall]|];
            split; [assumption | done] ]
      | ] ].
Qed.

(** ** Searching and substituting *)

Section Substitution.
Context (fl : flags) (r : regex) (repl : groups → text).

Lemma search_found s pre g rest :
  search fl r false s = Some (pre, g, rest) →
  ∃ s1, s = pre ++ s1 ∧ match_here fl r false s1 = Some (rest, g) ∧
        ∀ a b, pre = a ++ b → b ≠ [] → match_here fl r false (b ++ s1) = None.
Proof.
  revert pre. induction s as [|c s IH]; intros pre; simpl.
  - destruct (match_here fl r false []) as [[rest' g']|] eqn:Hm; [|done].
    intros [= <- <- <-]. exists []. repeat split; auto.
    intros a b Hab Hb. symmetry in Hab. apply app_eq_nil in Hab as [_ ->]. done.
  - destruct (match_here fl r false (c :: s)) as [[rest' g']|] eqn:Hm.
    + intros [= <- <- <-]. exists (c :: s). repeat split; auto.
      intros a b Hab Hb. symmetry in Hab. apply app_eq_nil in Hab as [_ ->]. done.
    + destruct (search fl r false s) as [[[pre' g'] rest']|] eqn:Hs; [|done].
      simpl. intros [= <- <- <-].
      destruct (IH pre' eq_refl) as (s1 & -> & Hm1 & Hnone).
      exists s1. repeat split; auto.
      intros [|c' a] b Hab Hb; simplify_eq/=; [done|].
      by eapply Hnone.
Qed.

Lemma search_nothing s :
  search fl r false s = None ↔
  ∀ a b, s = a ++ b → match_here fl r false b = None.
Proof.
  induction s as [|c s IH]; simpl.
  - destruct (match_here fl r false []) as [[rest' g']|] eqn:Hm.
    + split; [done|]. intros H. by rewrite (H [] []) in Hm.
    + split; [|done]. intros _ a b Hab. symmetry in Hab.
      by apply app_eq_nil in Hab as [_ ->].
  - destruct (match_here fl r false (c :: s)) as [[rest' g']|] eqn:Hm.
    + split; [done|]. intros H. by rewrite (H [] (c :: s)) in Hm.
    + destruct (search fl r false s) as [[[pre' g'] rest']|] eqn:Hs; simpl.
      * split; [done|]. intros H. exfalso.
        assert (Some (pre', g', rest') = None) as Hno; [|done].
        apply IH. intros a b ->. by apply (H (c :: a) b).
      * split; [|done]. intros _ [|c' a] b Hab; simplify_eq/=; [done|].
        destruct IH as [IH _]. by eapply IH.
Qed.

(** The regular expression cannot match the empty text. *)
Hypothesis consumes : ∀ s rest g,
  (rest, g) ∈ run fl r s ∅ → (length rest < length s)%nat.

Lemma match_here_shorter s rest g :
  match_here fl r false s = Some (rest, g) → (length rest < length s)%nat.
Proof.
  rewrite match_here_head. intros H. apply (consumes s rest g).
  destruct (run fl r s ∅); simplify_eq/=. apply elem_of_cons. by left.
Qed.

Lemma search_shorter s pre g rest :
  search fl r false s = Some (pre, g, rest) →
  (length pre + length rest < length s)%nat.
Proof.
  intros (s1 & -> & Hm & _)%search_found. apply match_here_shorter in Hm.
  rewrite length_app. lia.
Qed.

(** Enough fuel is enough: the pieces no longer depend on it. *)
Lemma sub_pieces_fuel f1 f2 s :
  (length s < f1)%nat → (length s < f2)%nat →
  sub_pieces fl r repl f1 false s = sub_pieces fl r repl f2 false s.
Proof.
  revert f2 s. induction f1 as [|f1 IH]; intros f2 s H1 H2; [lia|].
  destruct f2 as [|f2]; [lia|]. simpl.
  destruct (search fl r false s) as [[[pre g] rest]|] eqn:Hs; [|done].
  pose proof (search_shorter _ _ _ _ Hs) as Hlt.
  rewrite bool_decide_eq_false_2 by lia.
  do 2 f_equal. apply IH; lia.
Qed.

Lemma re_sub_nothing s :
  search fl r false s = None → re_sub fl r repl s = s.
Proof.
  intros H. unfold re_sub. replace (2 * length s + 2)%nat
    with (S (2 * length s + 1)) by lia.
  simpl. rewrite H. simpl. by rewrite app_nil_r.
Qed.

Lemma re_sub_found s pre g rest :
  search fl r false s = Some (pre, g, rest) →
  re_sub fl r repl s = pre ++ repl g ++ re_sub fl r repl rest.
Proof.
  intros H. unfold re_sub. replace (2 * length s + 2)%nat
    with (S (2 * length s + 1)) by lia.
  pose proof (search_shorter _ _ _ _ H) as Hlt.
  simpl. rewrite H. rewrite bool_decide_eq_false_2 by lia. simpl.
  do 3 f_equal. apply sub_pieces_fuel; lia.
Qed.

End Substitution.

(** ** The pattern under [re.sub] *)

(** The groups [transform_request] reads back. *)
Lemma group_captured ind i m p :
  group (captured ind i m p) 1 = ind ∧ group (captured ind i m p) 2 = i ∧
  group (captured ind i m p) 3 = m ∧ group (captured ind i m p) 4 = p.
Proof. done. Qed.

(** The callback emits the nested form, indented by group 1. *)
Lemma transform_request_nested ind i m p :
  transform_request (captured ind i m p) = nested ind i m p.
Proof.
  unfold transform_request, nested, nested_lines.
  destruct (group_captured ind i m p) as (-> & -> & -> & ->).
  cbn [fmap list_fmap join_lines]. unfold NL.
  rewrite <- !app_assoc. reflexivity.
Qed.

Lemma call_site_nonempty L ind i m p : ind ≠ [] → call_site L ind i m p ≠ [].
Proof. unfold call_site. by destruct ind. Qed.

(** A match of the pattern is never empty. *)
Lemma pattern_consumes s rest g :
  (rest, g) ∈ run script_flags pattern s ∅ → (length rest < length s)%nat.
Proof.
  intros (L & ind & i & m & p & _ & (Hind & _) & -> & _)%pattern_sound.
  rewrite length_app. apply (call_site_nonempty L ind i m p) in Hind.
  destruct (call_site L ind i m p); [done | simpl; lia].
Qed.

Lemma transform_nothing t : find t = None → transform t = t.
Proof. apply re_sub_nothing. Qed.

Lemma transform_found t pre g rest :
  find t = Some (pre, g, rest) →
  transform t = pre ++ transform_request g ++ transform rest.
Proof. apply re_sub_found, pattern_consumes. Qed.

Lemma match_here_elem fl r s rest g :
  match_here fl r false s = Some (rest, g) → (rest, g) ∈ run fl r s ∅.
Proof.
  rewrite match_here_head. destruct (run fl r s ∅); intros; simplify_eq/=.
  apply elem_of_cons. by left.
Qed.

Lemma match_here_none fl r s :
  match_here fl r false s = None ↔ run fl r s ∅ = [].
Proof. rewrite match_here_head. by destruct (run fl r s ∅). Qed.

(** The leftmost match is a call site between the text before and the
    text after it. *)
Lemma find_call_site t pre g rest :
  find t = Some (pre, g, rest) →
  ∃ L ind i m p, wf_layout L ∧ captures_ok ind i m p ∧
    t = pre ++ call_site L ind i m p ++ rest ∧ g = captured ind i m p.
Proof.
  intros (s1 & -> & Hm & _)%search_found.
  apply match_here_elem, pattern_sound in Hm
    as (L & ind & i & m & p & HL & Hok & -> & ->).
  by exists L, ind, i, m, p.
Qed.

Lemma find_shorter t pre g rest :
  find t = Some (pre, g, rest) → (length rest < length t)%nat.
Proof.
  intros H%search_shorter; [lia|]. apply pattern_consumes.
Qed.

(** The occurrences of a text: the leftmost match, then the occurrences
    of what follows it. *)
Lemma occurrences_unfold t :
  occurrences t =
  match find t with
  | None => []
  | Some (pre, g, rest) => (pre, g, rest) :: occurrences rest
  end.
Proof.
  assert (Hfuel : ∀ f1 f2 s, (length s < f1)%nat → (length s < f2)%nat →
    finditer script_flags pattern f1 false s =
    finditer script_flags pattern f2 false s).
  { induction f1 as [|f1 IH]; intros f2 s H1 H2; [lia|].
    destruct f2 as [|f2]; [lia|]. simpl.
    destruct (search script_flags pattern false s) as [[[pre g] rest]|] eqn:Hs;
      [|done].
    pose proof (search_shorter _ _ pattern_consumes _ _ _ _ Hs).
    rewrite bool_decide_eq_false_2 by lia. f_equal. apply IH; lia. }
  unfold occurrences, find.
  replace (2 * length t + 2)%nat with (S (2 * length t + 1)) by lia.
  simpl. destruct (search script_flags pattern false t) as [[[pre g] rest]|] eqn:Hs;
    [|done].
  pose proof (search_shorter _ _ pattern_consumes _ _ _ _ Hs).
  rewrite bool_decide_eq_false_2 by lia. f_equal. apply Hfuel; lia.
Qed.

(** ** Occurrences of a word in a text *)

Lemma occurs_here (w t : text) : occurs w (w ++ t).
Proof. by exists [], t. Qed.

Lemma occurs_app_r (w x y : text) : occurs w y → occurs w (x ++ y).
Proof. intros (a & b & ->). exists (x ++ a), b. by rewrite <- app_assoc. Qed.

Lemma occurs_app_l (w x y : text) : occurs w x → occurs w (x ++ y).
Proof. intros (a & b & ->). exists a, (b ++ y). by rewrite <- !app_assoc. Qed.

Lemma occurs_cons (w : text) c t :
  occurs w (c :: t) ↔ (∃ b, c :: t = w ++ b) ∨ occurs w t.
Proof.
  split.
  - intros ([|c' a] & b & H).
    + left. by exists b.
    + right. simplify_eq/=. by exists a, b.
  - intros [[b ->] | H]; [apply occurs_here|]. by apply (occurs_app_r w [c]).
Qed.

Lemma occursb_spec (w t : text) : occursb w t = true ↔ occurs w t.
Proof.
  induction t as [|c t IH].
  - simpl. rewrite orb_false_r, bool_decide_eq_true. split.
    + intros <-. rewrite take_nil. exists [], []. done.
    + intros (a & b & H). symmetry in H.
      apply app_eq_nil in H as [-> H]. apply app_eq_nil in H as [-> _]. done.
  - cbn [occursb]. rewrite orb_true_iff, bool_decide_eq_true, IH, occurs_cons.
    apply or_iff_compat_r. split.
    + intros <-. eexists. symmetry. apply take_drop.
    + intros [b ->]. by rewrite take_app_length.
Qed.

Lemma not_occurs (w t : text) : occursb w t = false → ¬ occurs w t.
Proof. intros H Ho%occursb_spec. congruence. Qed.

(** ** One occurrence, none, and the failures of the script *)

(** C6: the four-space example of the specification comes out as the
    nested form, the envelope's inner lines four blanks further in and
    the CallData lines eight. *)
Theorem sample_transformed :
  transform sample_in = sample_out ∧
  sample_in = call_site (plain false) (txt "    ") (txt "$id") (txt "'foo'") (txt "$args") ∧
  sample_out = nested (txt "    ") (txt "$id") (txt "'foo'") (txt "$args").
Proof. split; [|split]; vm_compute; reflexivity. Qed.



(** C7: a missing, unreadable or unwritable target makes the script end
    with the file-system error it met; the file and the output are as
    they were. Otherwise the script runs to its end. *)
Theorem script_errors_propagate w :
  match fs w !! target with
  | None => script w = (inl FileNotFoundError, w)
  | Some f =>
      if negb (readable f) then script w = (inl PermissionError, w)
      else if negb (writable f) then script w = (inl PermissionError, w)
      else ∃ w', script w = (inr (), w')
  end.
Proof.
  unfold script, io_bind, read_text, write_text, print.
  destruct (fs w !! target) as [f|] eqn:Hf; [|done].
  destruct (readable f); simpl; [|done]. rewrite Hf.
  destruct (writable f); simpl; [|done]. eauto.
Qed.

(** Text without a carriage return is read as it is stored. *)
Lemma universal_newlines_plain (s : text) :
  13 ∉ s → universal_newlines s = s.
Proof.
  induction s as [|c s IH]; [done|]. intros Hs.
  apply not_elem_of_cons in Hs as [Hc Hs]. cbn [universal_newlines].
  destruct (N.eqb_spec c 13) as [->|_]; [done|]. by rewrite IH.
Qed.

(** What the script does to a world whose target can be read and
    written. *)
Lemma script_runs w f :
  fs w !! target = Some f → readable f = true → writable f = true →
  script w =
    (inr (), World (<[target := File true true
                                   (transform (universal_newlines (content f)))]> (fs w))
                   (stdout w ++ [done_message])
                   (written w ++ [(target, transform (universal_newlines (content f)))])).
Proof.
  intros Hf Hr Hw. unfold script, io_bind, read_text, write_text, print.
  rewrite Hf, Hr. cbn. rewrite Hf, Hw. cbn. by rewrite Hr.
Qed.

(** C5, as the specification has it, fails on a file with Windows line
    ends: the pattern has no match in it, the script ends normally, and
    yet the file does not hold what it held, because reading turned its
    line ends into ["\n"] and the write stored them so. *)
Lemma zero_matches_line_ends_rewritten :
  occurrences (universal_newlines crlf_text) = [] ∧
  (script crlf_world).1 = inr () ∧
  fs (script crlf_world).2 !! target ≠ fs crlf_world !! target.
Proof.
  split; [vm_compute; reflexivity|]. split; [vm_compute; reflexivity|].
  rewrite (script_runs crlf_world (File true true crlf_text)) by (vm_compute; reflexivity).
  cbn [snd fs]. rewrite lookup_insert_eq.
  change (fs crlf_world !! target) with (Some (File true true crlf_text)).
  intros [= H].
Qed.

(** C5, amended: when the pattern has no match in the text read, the
    output text is that text exactly; the script ends normally, writes
    the target once, with the text as read, and prints the fixed
    message. The file holds what it held when it has no carriage
    return. Result and message are those of any other run on a
    readable, writable target. *)
Theorem zero_matches_still_succeed w f :
  fs w !! target = Some f → readable f = true → writable f = true →
  occurrences (universal_newlines (content f)) = [] →
  transform (universal_newlines (content f)) = universal_newlines (content f) ∧
  script w =
    (inr (), World (<[target := File true true (universal_newlines (content f))]> (fs w))
                   (stdout w ++ [done_message])
                   (written w ++ [(target, universal_newlines (content f))])) ∧
  (13 ∉ content f → fs (script w).2 !! target = Some f) ∧
  (∀ w' f', fs w' !! target = Some f' → readable f' = true → writable f' = true →
     (script w').1 = (script w).1 ∧
     stdout (script w').2 = stdout w' ++ [done_message]).
Proof.
  intros Hf Hr Hw Hocc.
  assert (transform (universal_newlines (content f)) = universal_newlines (content f))
    as Hsame.
  { rewrite occurrences_unfold in Hocc.
    destruct (find (universal_newlines (content f))) as [[[? ?] ?]|] eqn:Hfind; [done|].
    by apply transform_nothing. }
  split; [exact Hsame|].
  rewrite (script_runs w f Hf Hr Hw), Hsame. split; [done|]. split.
  - intros Hcr. cbn [snd fs]. rewrite lookup_insert_eq, universal_newlines_plain by done.
    destruct f; simpl in *; by subst.
  - intros w' f' Hf' Hr' Hw'. by rewrite (script_runs w' f' Hf' Hr' Hw').
Qed.

Lemma zero_matches_still_succeed_witness :
  transform (universal_newlines (txt "<?php echo 1;"))
    = universal_newlines (txt "<?php echo 1;") ∧
  script quiet_world =
    (inr (), World (<[target := File true true (universal_newlines (txt "<?php echo 1;"))]>
                      (fs quiet_world))
                   (stdout quiet_world ++ [done_message])
                   (written quiet_world
                      ++ [(target, universal_newlines (txt "<?php echo 1;"))])) ∧
  (13 ∉ txt "<?php echo 1;" →
   fs (script quiet_world).2 !! target = Some (File true true (txt "<?php echo 1;"))) ∧
  (∀ w' f', fs w' !! target = Some f' → readable f' = true → writable f' = true →
     (script w').1 = (script quiet_world).1 ∧
     stdout (script w').2 = stdout w' ++ [done_message]).
Proof.
  apply (zero_matches_still_succeed quiet_world
           (File true true (txt "<?php echo 1;"))); vm_compute; reflexivity.
Defined.

(** Every call site shows its opening right after its indentation. *)
Lemma call_site_opening L ind i m p :
  ∃ b, call_site L ind i m p = ind ++ opening ++ b.
Proof. unfold call_site. eauto. Qed.

Lemma occurs_key_here (q1 q2 : N) (name y : text) :
  occurs ([q1] ++ name ++ [q2]) ([q1] ++ name ++ [q2] ++ y).
Proof. exists [], y. by rewrite <- !app_assoc. Qed.

Lemma has_key_call_site L ind i m p pre rest name :
  wf_layout L → name ∈ key_names →
  has_key name (pre ++ call_site L ind i m p ++ rest).
Proof.
  intros [_ Hq] Hname. unfold key_names in Hname.
  rewrite !elem_of_cons, elem_of_nil in Hname.
  unfold call_site, key. rewrite <- !app_assoc.
  destruct Hname as [->|[->|[->|[->|[]]]]].
  - exists (qt L 0), (qt L 1). repeat split; auto.
    do 4 apply occurs_app_r. apply occurs_key_here.
  - exists (qt L 4), (qt L 5). repeat split; auto.
    do 16 apply occurs_app_r. apply occurs_key_here.
  - exists (qt L 6), (qt L 7). repeat split; auto.
    do 25 apply occurs_app_r. apply occurs_key_here.
  - exists (qt L 8), (qt L 9). repeat split; auto.
    do 34 apply occurs_app_r. apply occurs_key_here.
Qed.



Lemma longer_differs (a b : text) : length a ≠ length b → a ≠ b.
Proof. congruence. Qed.



(** ** Matching looks at nothing but what it consumes *)

Section Locality.
Context (fl : flags) (x : text).

Lemma filter_none {A} (P : A → Prop) `{!∀ a, Decision (P a)} (l : list A) :
  (∀ a, a ∈ l → ¬ P a) → filter P l = [].
Proof.
  induction l as [|a l IH]; intros Hl; [done|].
  rewrite filter_cons_False by (apply Hl; left).
  apply IH. intros b Hb. apply Hl. by right.
Qed.

Lemma filter_all {A} (P : A → Prop) `{!∀ a, Decision (P a)} (l : list A) :
  (∀ a, a ∈ l → P a) → filter P l = l.
Proof.
  induction l as [|a l IH]; intros Hl; [done|].
  rewrite filter_cons_True by (apply Hl; left).
  f_equal. apply IH. intros b Hb. apply Hl. by right.
Qed.

Lemma filter_fmap {A B} (f : A → B) (P : B → Prop) `{!∀ b, Decision (P b)}
    (l : list A) :
  filter P (f <$> l) = f <$> filter (fun a => P (f a)) l.
Proof.
  induction l as [|a l IH]; [done|]. rewrite fmap_cons.
  destruct (decide (P (f a))) as [Hp|Hp].
  - rewrite !filter_cons_True by done. by rewrite fmap_cons, IH.
  - rewrite !filter_cons_False by done. done.
Qed.

Lemma reps_short greedy lo hi cs s s' :
  s' ∈ reps fl greedy lo hi cs s → (length s' ≤ length s)%nat.
Proof. intros (w & -> & _)%reps_elem. rewrite length_app. lia. Qed.

Lemma run_short r s g s' g' :
  (s', g') ∈ run fl r s g → (length s' ≤ length s)%nat.
Proof. intros (w & ->)%run_suffix. rewrite length_app. lia. Qed.

(** On [s ++ x] a repetition that stays within [s] does what it does
    on [s]. *)
Lemma reps_app greedy lo hi cs s :
  filter (fun s' => (length x ≤ length s')%nat)
         (reps fl greedy lo hi cs (s ++ x))
  = (fun s' => s' ++ x) <$> reps fl greedy lo hi cs s.
Proof.
  revert lo hi. induction s as [|c s IH]; intros lo hi.
  - cbn [app]. destruct x as [|c x'] eqn:Hx.
    + rewrite filter_all by (intros; simpl; lia).
      destruct greedy, lo; reflexivity.
    + cbn [reps].
      set (more := if accepts fl cs c && negb (bool_decide (hi = Some O))
                   then reps fl greedy (Nat.pred lo) (Nat.pred <$> hi) cs x'
                   else []).
      assert (filter (fun s' => (length (c :: x') ≤ length s')%nat) more = [])
        as Hmore.
      { apply filter_none. intros a Ha. subst more.
        destruct (accepts fl cs c && negb (bool_decide (hi = Some O)));
          [|by apply elem_of_nil in Ha].
        apply reps_short in Ha. simpl. lia. }
      destruct greedy; rewrite filter_app, Hmore; destruct lo; cbn [app];
        rewrite ?filter_nil; try reflexivity;
        rewrite filter_cons_True by (simpl; lia); reflexivity.
  - cbn [app reps].
    set (cond := accepts fl cs c && negb (bool_decide (hi = Some O))).
    assert (filter (fun s' => (length x ≤ length s')%nat)
              (if cond
               then reps fl greedy (Nat.pred lo) (Nat.pred <$> hi) cs (s ++ x)
               else [])
            = (fun s' => s' ++ x) <$>
              (if cond
               then reps fl greedy (Nat.pred lo) (Nat.pred <$> hi) cs s
               else [])) as Hmore.
    { destruct cond; [apply IH | reflexivity]. }
    assert (filter (fun s' => (length x ≤ length s')%nat)
              (match lo with O => [c :: s ++ x] | S _ => [] end)
            = (fun s' => s' ++ x) <$>
              (match lo with O => [c :: s] | S _ => [] end)) as Hstop.
    { destruct lo; [|reflexivity].
      rewrite filter_cons_True by (simpl; rewrite length_app; lia).
      reflexivity. }
    destruct greedy; rewrite filter_app, fmap_app, Hmore, Hstop; reflexivity.
Qed.

(** On [s ++ x] the ways of matching that stay within [s] are the ways
    of matching [s], in the same order. *)
Lemma run_app r s g :
  filter (fun st : text * groups => (length x ≤ length st.1)%nat)
         (run fl r (s ++ x) g)
  = (fun st : text * groups => (st.1 ++ x, st.2)) <$> run fl r s g.
Proof.
  revert s g. induction r as [l|cs|gr lo hi cs|i r IH|r1 IH1 r2 IH2]; intros s g.
  - simpl. destruct (decide (length l ≤ length s)%nat) as [Hle|Hgt].
    + rewrite take_app_le, drop_app_le by done.
      case_bool_decide; [|done].
      rewrite filter_cons_True by (simpl; rewrite length_app; lia). done.
    + assert (take (length l) s ≠ l) as Hne.
      { intros Heq. apply (f_equal length) in Heq.
        rewrite length_take in Heq. lia. }
      rewrite (bool_decide_eq_false_2 _ Hne).
      case_bool_decide as Hpre; [|done].
      apply (f_equal length) in Hpre. rewrite length_take, length_app in Hpre.
      rewrite filter_cons_False; [done|]. simpl.
      rewrite length_drop, length_app. lia.
  - destruct s as [|c s]; cbn [app run].
    + destruct x as [|c x']; [done|]. destruct (accepts fl cs c); [|done].
      rewrite filter_cons_False; [done|]. simpl. lia.
    + destruct (accepts fl cs c); [|done].
      rewrite filter_cons_True by (simpl; rewrite length_app; lia). done.
  - cbn [run]. rewrite filter_fmap. cbn [fst].
    rewrite reps_app, <- !list_fmap_compose. reflexivity.
  - cbn [run]. rewrite filter_fmap. cbn [fst].
    rewrite IH, <- !list_fmap_compose. apply list_fmap_ext.
    intros k [s1 g1] Hk. cbn. apply list_elem_of_lookup_2, run_short in Hk.
    f_equal. f_equal. rewrite !length_app.
    replace (length s + length x - (length s1 + length x))%nat
      with (length s - length s1)%nat by lia.
    apply take_app_le. lia.
  - cbn [run].
    transitivity
      (filter (fun st : text * groups => (length x ≤ length st.1)%nat)
              (run fl r1 (s ++ x) g)
         ≫= (fun st => filter (fun st : text * groups => (length x ≤ length st.1)%nat)
                          (run fl r2 st.1 st.2))).
    + induction (run fl r1 (s ++ x) g) as [|[s1 g1] l IHl]; [done|].
      rewrite bind_cons, filter_app, IHl.
      destruct (decide (length x ≤ length s1)%nat) as [Hle|Hgt].
      * rewrite filter_cons_True by done. by rewrite bind_cons.
      * rewrite filter_cons_False by done.
        rewrite filter_none; [done|].
        intros [s2 g2] H2%run_short. simpl in *. lia.
    + rewrite IH1, list_fmap_bind.
      induction (run fl r1 s g) as [|[s1 g1] l IHl]; [done|].
      rewrite !bind_cons, fmap_app, IHl. f_equal. cbn. apply IH2.
Qed.

End Locality.

(** A match found in front of more text is found the same on its own. *)
Lemma match_here_alone fl r span rest g :
  match_here fl r false (span ++ rest) = Some (rest, g) →
  match_here fl r false span = Some ([], g).
Proof.
  rewrite !match_here_head. intros H.
  pose proof (run_app fl rest r span ∅) as Happ.
  destruct (run fl r (span ++ rest) ∅) as [|st l]; simplify_eq/=.
  rewrite filter_cons_True in Happ by (simpl; lia).
  destruct (run fl r span ∅) as [|[s1 g1] l1]; simplify_eq/=.
  assert (s1 = []) as ->; [|done].
  match goal with
  | H : rest = s1 ++ rest |- _ => apply (f_equal length) in H;
      rewrite length_app in H
  end.
  destruct s1; [done | simpl in *; lia].
Qed.

(** What matches on its own matches in front of more text. *)
Lemma match_here_extend fl r s x :
  match_here fl r false s ≠ None → match_here fl r false (s ++ x) ≠ None.
Proof.
  rewrite !match_here_none. intros Hs Hsx.
  pose proof (run_app fl x r s ∅) as Happ. rewrite Hsx in Happ.
  destruct (run fl r s ∅); [done | discriminate].
Qed.

Lemma find_empty : find [] = None.
Proof.
  unfold find. cbn [search].
  destruct (match_here script_flags pattern false []) as [[rest g]|] eqn:Hm;
    [|done].
  apply match_here_elem, pattern_consumes in Hm. simpl in Hm. lia.
Qed.

(** The span of the leftmost match transforms on its own into what the
    callback returns for it, and the text before it into itself. *)
Lemma find_alone t pre g rest :
  find t = Some (pre, g, rest) →
  ∃ span, t = pre ++ span ++ rest ∧
    transform span = transform_request g ∧ transform pre = pre.
Proof.
  intros Hf. destruct (search_found _ _ _ _ _ _ Hf) as (s1 & -> & Hm & Hleft).
  destruct (run_suffix _ _ _ _ _ _ (match_here_elem _ _ _ _ _ Hm)) as [span ->].
  exists span. split; [done|]. split.
  - apply match_here_alone in Hm.
    assert (find span = Some ([], g, [])) as Hs.
    { unfold find. destruct span; cbn [search]; by rewrite Hm. }
    rewrite (transform_found _ _ _ _ Hs), (transform_nothing _ find_empty).
    by rewrite app_nil_r.
  - apply transform_nothing, search_nothing. intros a b ->.
    destruct (match_here script_flags pattern false b) as [[rest' g']|] eqn:Hb;
      [|done].
    exfalso. destruct b as [|c b].
    + apply match_here_elem, pattern_consumes in Hb. simpl in Hb. lia.
    + apply (match_here_extend script_flags pattern (c :: b) (span ++ rest)).
      * by rewrite Hb.
      * by apply (Hleft a).
Qed.

(** Two calls: both are replaced; the second one's indentation starts
    at the newline that ends the first. *)
Example two_calls_replaced :
  length (occurrences two_calls) = 2%nat ∧
  transform two_calls
  = sample_out ++
    nested (NL ++ txt "    ") (txt "7") (txt "'bar'") (txt "[1, 2]").
Proof. split; vm_compute; reflexivity. Qed.

(** Whatever their number, the occurrences cut the text, left to right
    and without overlap, into stretches and call sites; the output is
    the same sequence with each call site replaced by the nested form
    it gets when transformed alone, the stretches and the tail as they
    were. *)
Lemma occurrences_cut t :
  ∃ ps tail,
    Forall2 replaced_alone (occurrences t) ps ∧
    t = apart ps tail ∧ transform t = each_replaced ps tail ∧
    transform tail = tail.
Proof.
  remember (length t) as n eqn:Hn. revert t Hn.
  induction n as [n IH] using lt_wf_ind. intros t ->.
  rewrite occurrences_unfold.
  destruct (find t) as [[[pre g] rest]|] eqn:Hf.
  - destruct (IH (length rest) (find_shorter _ _ _ _ Hf) rest eq_refl)
      as (ps & tail & Hall & Hrest & Htr & Htail).
    destruct (find_alone _ _ _ _ Hf) as (span & Ht & Hspan & Hpre).
    destruct (find_call_site _ _ _ _ Hf)
      as (L & ind & i & m & p & HL & Hok & Ht' & ->).
    assert (span = call_site L ind i m p) as Hsite.
    { rewrite Ht in Ht'. by apply app_inv_head, app_inv_tail in Ht'. }
    exists ((pre, span) :: ps), tail. repeat split; try done.
    + constructor; [|done]. repeat split; try done. simpl.
      exists L, ind, i, m, p. repeat split; try done; try apply HL; try apply Hok.
      by rewrite Hspan, transform_request_nested.
    + simpl. by rewrite <- Hrest.
    + simpl. by rewrite (transform_found _ _ _ _ Hf), Hspan, Htr.
  - exists [], t. repeat split; try done; by apply transform_nothing.
Qed.

(** ** The way the engine prefers *)

Section Preference.
Context (fl : flags).

Lemma run_cat_lit l r s g : run fl (Lit l ⨾ r) (l ++ s) g = run fl r s g.
Proof.
  cbn [run]. rewrite take_app_length, drop_app_length.
  rewrite bool_decide_eq_true_2 by done. rewrite bind_singleton. done.
Qed.

Lemma run_lit_here l s g : run fl (Lit l) (l ++ s) g = [(s, g)].
Proof.
  cbn [run]. rewrite take_app_length, drop_app_length.
  by rewrite bool_decide_eq_true_2.
Qed.

Lemma run_lit_other l c c' s g : c ≠ c' → run fl (Lit (c :: l)) (c' :: s) g = [].
Proof. intros Hc. cbn. rewrite bool_decide_eq_false_2; [done | congruence]. Qed.

Lemma run_cat_lit_other l r c c' s g :
  c ≠ c' → run fl (Lit (c :: l) ⨾ r) (c' :: s) g = [].
Proof.
  intros Hc.
  change (run fl (Lit (c :: l) ⨾ r) (c' :: s) g)
    with (st ← run fl (Lit (c :: l)) (c' :: s) g; run fl r st.1 st.2).
  by rewrite (run_lit_other l c c' s g Hc).
Qed.

Lemma run_cat_quote q r s g :
  is_quote q → run fl (quote ⨾ r) (q :: s) g = run fl r s g.
Proof.
  intros Hq%(accepts_quote fl). cbn [run quote]. rewrite Hq, bind_singleton. done.
Qed.

Lemma quote_not_space q : is_quote q → is_space q = false.
Proof. by intros [-> | ->]. Qed.

Lemma run_cat_quote_space r c s g :
  is_space c = true → run fl (quote ⨾ r) (c :: s) g = [].
Proof.
  intros Hc. cbn [run quote].
  destruct (accepts fl (OneOf [39; 34]) c) eqn:Hq; [|done].
  apply accepts_quote, quote_not_space in Hq. congruence.
Qed.

(** A greedy run of whitespace in front of [r]: the engine first lets
    [r] start after one more blank, and only then right here. *)
Lemma run_ws_star_cons r c s g :
  is_space c = true →
  run fl (ws_star ⨾ r) (c :: s) g
  = run fl (ws_star ⨾ r) s g ++ run fl r (c :: s) g.
Proof.
  intros Hc. cbn [run ws_star reps]. rewrite accepts_space, Hc.
  cbn [andb negb fmap option_fmap option_map Nat.pred].
  rewrite bool_decide_eq_false_2 by done. cbn [negb].
  rewrite fmap_app, bind_app. f_equal. cbn. by rewrite app_nil_r.
Qed.

Lemma run_ws_star_stop r s g :
  match s with c :: _ => is_space c = false | [] => True end →
  run fl (ws_star ⨾ r) s g = run fl r s g.
Proof.
  intros Hs. destruct s as [|c s]; cbn [run ws_star reps].
  - cbn. by rewrite app_nil_r.
  - rewrite accepts_space, Hs. cbn. by rewrite app_nil_r.
Qed.

(** Whitespace before an item that cannot start with whitespace is
    skipped whole. *)
Lemma run_ws_skip r w s g :
  Forall (fun c => is_space c = true) w →
  match s with c :: _ => is_space c = false | [] => True end →
  (∀ c s' g', is_space c = true → run fl r (c :: s') g' = []) →
  run fl (ws_star ⨾ r) (w ++ s) g = run fl r s g.
Proof.
  intros Hw Hs Hr. induction Hw as [|c w Hc Hw IH]; cbn [app].
  - by apply run_ws_star_stop.
  - rewrite (run_ws_star_cons r c (w ++ s) g Hc), IH, (Hr c _ _ Hc).
    by rewrite app_nil_r.
Qed.

(** Whitespace before any item: skipping it whole comes first. *)
Lemma run_ws_first r w s g st l :
  Forall (fun c => is_space c = true) w →
  match s with c :: _ => is_space c = false | [] => True end →
  run fl r s g = st :: l →
  ∃ l', run fl (ws_star ⨾ r) (w ++ s) g = st :: l'.
Proof.
  intros Hw Hs Hr. induction Hw as [|c w Hc Hw IH]; cbn [app].
  - rewrite run_ws_star_stop by done. eauto.
  - rewrite (run_ws_star_cons r c (w ++ s) g Hc).
    destruct IH as [l' ->]. eauto.
Qed.

Lemma run_ws_quote r w q s g :
  Forall (fun c => is_space c = true) w → is_quote q →
  run fl (ws_star ⨾ quote ⨾ r) (w ++ q :: s) g = run fl r s g.
Proof.
  intros Hw Hq. rewrite run_ws_skip; auto.
  - by apply run_cat_quote.
  - by apply quote_not_space.
  - intros. by apply run_cat_quote_space.
Qed.

Lemma run_ws_lit r w c l s g :
  Forall (fun c => is_space c = true) w → is_space c = false →
  run fl (ws_star ⨾ Lit (c :: l) ⨾ r) (w ++ (c :: l) ++ s) g = run fl r s g.
Proof.
  intros Hw Hc. rewrite run_ws_skip; auto.
  - by apply run_cat_lit.
  - intros c' s' g' Hc'. apply run_cat_lit_other. congruence.
Qed.

Lemma run_ws_lit_end w c l s g :
  Forall (fun c => is_space c = true) w → is_space c = false →
  run fl (ws_star ⨾ Lit (c :: l)) (w ++ (c :: l) ++ s) g = [(s, g)].
Proof.
  intros Hw Hc. rewrite run_ws_skip; auto.
  - by apply run_lit_here.
  - intros c' s' g' Hc'. apply run_lit_other. congruence.
Qed.

End Preference.

Section Repetition.
Context (fl : flags) (cs : cset).

Lemma reps_greedy_cons lo c x :
  accepts fl cs c = true →
  reps fl true lo None cs (c :: x)
  = reps fl true (Nat.pred lo) None cs x
    ++ match lo with O => [c :: x] | S _ => [] end.
Proof.
  intros Hc. cbn [reps]. rewrite Hc.
  rewrite bool_decide_eq_false_2 by done. reflexivity.
Qed.

Lemma reps_lazy_cons lo c x :
  accepts fl cs c = true →
  reps fl false lo None cs (c :: x)
  = match lo with O => [c :: x] | S _ => [] end
    ++ reps fl false (Nat.pred lo) None cs x.
Proof.
  intros Hc. cbn [reps]. rewrite Hc.
  rewrite bool_decide_eq_false_2 by done. reflexivity.
Qed.

Lemma reps_stop greedy lo s :
  match s with c :: _ => accepts fl cs c = false | [] => True end →
  reps fl greedy lo None cs s = match lo with O => [s] | S _ => [] end.
Proof.
  intros Hs. destruct s as [|c s]; cbn [reps].
  - destruct greedy, lo; reflexivity.
  - rewrite Hs. destruct greedy, lo; reflexivity.
Qed.

(** A greedy run followed by something that fails wherever the run is
    cut short goes on after the whole run, and nowhere else. *)
Lemma reps_greedy_bind {B} (h : text → list B) w s lo :
  Forall (fun c => accepts fl cs c = true) w →
  match s with c :: _ => accepts fl cs c = false | [] => True end →
  (lo ≤ length w)%nat →
  (∀ w1 c w2, w = w1 ++ c :: w2 → (lo ≤ length w1)%nat → h (c :: w2 ++ s) = []) →
  reps fl true lo None cs (w ++ s) ≫= h = h s.
Proof.
  intros Hw Hs. revert lo. induction Hw as [|c w Hc Hw IH]; intros lo Hlo Hcut.
  - cbn [app]. rewrite reps_stop by done. destruct lo; [|simpl in Hlo; lia].
    by rewrite bind_singleton.
  - cbn [app]. rewrite reps_greedy_cons, bind_app by done.
    rewrite IH.
    + destruct lo; [|by rewrite app_nil_r].
      rewrite bind_singleton, (Hcut [] c w); [by rewrite app_nil_r|done|simpl; lia].
    + simpl in Hlo. lia.
    + intros w1 c' w2 -> Hl. apply (Hcut (c :: w1) c' w2); [done|]. simpl. lia.
Qed.

(** A lazy run followed by something that fails wherever the run is cut
    short first goes on after the whole run. *)
Lemma reps_lazy_bind {B} (h : text → list B) w s lo :
  Forall (fun c => accepts fl cs c = true) w →
  (lo ≤ length w)%nat →
  (∀ w1 c w2, w = w1 ++ c :: w2 → (lo ≤ length w1)%nat → h (c :: w2 ++ s) = []) →
  ∃ l', reps fl false lo None cs (w ++ s) ≫= h = h s ++ l'.
Proof.
  intros Hw. revert lo. induction Hw as [|c w Hc Hw IH]; intros lo Hlo Hcut.
  - cbn [app]. destruct lo; [|simpl in Hlo; lia].
    assert (∃ more, reps fl false 0 None cs s = [s] ++ more) as [more ->].
    { destruct s; cbn [reps]; eauto. }
    rewrite bind_app, bind_singleton. eauto.
  - cbn [app]. rewrite reps_lazy_cons, bind_app by done.
    destruct (IH (Nat.pred lo)) as [l' ->].
    + simpl in Hlo. lia.
    + intros w1 c' w2 -> Hl. apply (Hcut (c :: w1) c' w2); [done|]. simpl. lia.
    + destruct lo; [|by eauto].
      rewrite bind_singleton, (Hcut [] c w); [by eauto|done|simpl; lia].
Qed.

Lemma run_grp_cat k greedy lo hi r x g :
  run fl (Grp k (Rep greedy lo hi cs) ⨾ r) x g
  = reps fl greedy lo hi cs x ≫=
      (fun s' => run fl r s' (<[k := take (length x - length s') x]> g)).
Proof. cbn [run]. rewrite !list_fmap_bind. reflexivity. Qed.

Lemma take_consumed (w s : text) : take (length (w ++ s) - length s) (w ++ s) = w.
Proof.
  rewrite length_app. replace (length w + length s - length s)%nat
    with (length w) by lia. apply take_app_length.
Qed.

(** A greedy group in front of [r], where [r] cannot start with a
    character of the run: the group takes the whole run. *)
Lemma run_grp_greedy k r w s g :
  Forall (fun c => accepts fl cs c = true) w → w ≠ [] →
  match s with c :: _ => accepts fl cs c = false | [] => True end →
  (∀ c s' g', accepts fl cs c = true → run fl r (c :: s') g' = []) →
  run fl (Grp k (Rep true 1 None cs) ⨾ r) (w ++ s) g
  = run fl r s (<[k := w]> g).
Proof.
  intros Hw Hne Hs Hr. rewrite run_grp_cat, reps_greedy_bind; try done.
  - by rewrite take_consumed.
  - by apply nonempty_length.
  - intros w1 c w2 -> _. apply Hr.
    apply Forall_app in Hw as [_ Hw]. by inversion Hw.
Qed.

(** A lazy group in front of [r], where [r] fails at every earlier cut:
    the group first takes the whole run. *)
Lemma run_grp_lazy k r w s g st l :
  Forall (fun c => accepts fl cs c = true) w → w ≠ [] →
  (∀ w1 c w2 g', w = w1 ++ c :: w2 → w1 ≠ [] → run fl r (c :: w2 ++ s) g' = []) →
  run fl r s (<[k := w]> g) = st :: l →
  ∃ l', run fl (Grp k (Rep false 1 None cs) ⨾ r) (w ++ s) g = st :: l'.
Proof.
  intros Hw Hne Hcut Hr. rewrite run_grp_cat.
  destruct (reps_lazy_bind
              (fun s' => run fl r s'
                 (<[k := take (length (w ++ s) - length s') (w ++ s)]> g))
              w s 1%nat) as [l' ->]; try done.
  - by apply nonempty_length.
  - intros w1 c w2 -> Hl. apply (Hcut w1 c w2); [done|].
    by apply nonempty_length.
  - rewrite take_consumed, Hr. eauto.
Qed.

End Repetition.

(** ** The end of the params *)

Section Terminator.
Context (fl : flags).

Lemma run_comma_opt_take r s g :
  run fl (comma_opt ⨾ r) (44 :: s) g = run fl r s g ++ run fl r (44 :: s) g.
Proof.
  assert (reps fl true 0 (Some 1%nat) (Is 44) (44 :: s) = [s; 44 :: s]) as Hr.
  { cbn [reps accepts]. rewrite N.eqb_refl. cbn.
    destruct s as [|c s]; cbn [reps]; [done|].
    rewrite andb_false_r. done. }
  cbn [run comma_opt]. rewrite Hr. cbn. by rewrite app_nil_r.
Qed.

Lemma run_comma_opt_stop r s g :
  match s with c :: _ => c ≠ 44 | [] => True end →
  run fl (comma_opt ⨾ r) s g = run fl r s g.
Proof.
  intros Hs. cbn [run comma_opt]. destruct s as [|c s]; cbn [reps].
  - cbn. by rewrite app_nil_r.
  - cbn [accepts]. apply N.eqb_neq in Hs. rewrite Hs. cbn. by rewrite app_nil_r.
Qed.

Lemma closing_cons : closing = 93 :: txt ");".
Proof. reflexivity. Qed.

Lemma space_not_comma c : is_space c = true → c ≠ 44.
Proof. by intros Hc ->. Qed.

(** Right after the params the terminator matches, and this comes
    first. *)
Lemma terminator_here (tc : bool) w post g :
  Forall (fun c => is_space c = true) w →
  ∃ l', run fl terminator ((if tc then txt "," else []) ++ w ++ closing ++ post) g
        = (post, g) :: l'.
Proof.
  intros Hw. unfold terminator.
  change (txt "]);") with (93 :: txt ");").
  change closing with ([93] ++ txt ");"). rewrite <- app_assoc.
  change ([93] ++ txt ");" ++ post) with ((93 :: txt ");") ++ post).
  destruct tc.
  - change (txt "," ++ ?x) with (44 :: x).
    rewrite run_comma_opt_take.
    rewrite (run_ws_lit_end fl w 93 (txt ");") post g Hw eq_refl). eauto.
  - rewrite app_nil_l, run_comma_opt_stop.
    + rewrite (run_ws_lit_end fl w 93 (txt ");") post g Hw eq_refl). eauto.
    + destruct Hw as [|c w Hc _]; [done|]. by apply space_not_comma.
Qed.

End Terminator.

Section NoEarlyEnd.
Context (fl : flags).

Lemma soft_prefix (u q' : text) z tl X :
  Forall soft u → ¬ soft z → q' ++ z :: tl = u ++ X → ∃ q'', q' = u ++ q''.
Proof.
  intros Hu Hz. revert q'. induction Hu as [|a u Ha Hu IH]; intros q' Heq.
  - by exists q'.
  - destruct q' as [|b q']; simplify_eq/=; [done|].
    destruct (IH q') as [q'' ->]; [done|]. by exists q''.
Qed.

Lemma after_params_head (tc : bool) w post :
  Forall (fun c => is_space c = true) w →
  ∃ c0 r0, (if tc then txt "," else []) ++ w ++ closing ++ post = c0 :: r0 ∧
           c0 ≠ 41 ∧ c0 ≠ 59.
Proof.
  intros Hw. destruct tc.
  - exists 44, (w ++ closing ++ post). done.
  - rewrite app_nil_l. destruct Hw as [|c w Hc _].
    + exists 93, (txt ");" ++ post). done.
    + exists c, (w ++ closing ++ post). repeat split; by intros ->.
Qed.

(** Inside a params expression that does not contain the closing, and
    before its solid end, the terminator cannot match. *)
Lemma no_early_terminator (tc : bool) w post q g :
  Forall (fun c => is_space c = true) w →
  ends_solid q → ¬ occurs closing q →
  run fl terminator (q ++ (if tc then txt "," else []) ++ w ++ closing ++ post) g
  = [].
Proof.
  intros Hw Hend Hno.
  destruct (run fl terminator _ g) as [|[s' g'] l] eqn:Hrun; [done|]. exfalso.
  assert ((s', g') ∈ run fl terminator
            (q ++ (if tc then txt "," else []) ++ w ++ closing ++ post) g) as Hel.
  { rewrite Hrun. by left. }
  clear Hrun. unfold terminator in Hel.
  apply run_cat_elem in Hel as (s1 & g1 & H1 & Hel).
  apply comma_opt_elem in H1 as (-> & tc' & Hs1).
  apply run_cat_elem in Hel as (s2 & g2 & H2 & Hel).
  apply ws_star_elem in H2 as (-> & w' & -> & Hw').
  apply run_lit_elem in Hel as [-> ->].
  unfold ends_solid in Hend.
  destruct (last q) as [z|] eqn:Hlast; [|done]. destruct Hend as [Hzs Hzc].
  apply last_Some in Hlast as [q' ->].
  destruct (after_params_head tc w post Hw) as (c0 & r0 & Htail & Hc1 & Hc2).
  rewrite Htail in Hs1. rewrite <- app_assoc in Hs1. cbn [app] in Hs1.
  destruct (soft_prefix ((if tc' then txt "," else []) ++ w') q' z (c0 :: r0)
              (txt "]);" ++ s')) as [q'' ->].
  - apply Forall_app. split.
    + destruct tc'; [|done]. constructor; [by left | done].
    + eapply Forall_impl; [exact Hw'|]. intros c Hc. by right.
  - intros [-> | Hz]; [done | congruence].
  - by rewrite <- app_assoc.
  - rewrite <- !app_assoc in Hs1. apply app_inv_head in Hs1.
    destruct tc'; cbn [app] in Hs1.
    all: apply app_inv_head in Hs1.
    all: change (txt "]);" ++ s') with (93 :: 41 :: 59 :: s') in Hs1.
    all: destruct q'' as [|a [|b [|d r]]]; simplify_eq/=.
    all: apply Hno; unfold closing.
    all: match goal with
         | |- occurs _ ((?u ++ [93; 41]) ++ [59]) => exists u, []
         | |- occurs _ ((?u ++ 93 :: 41 :: 59 :: ?r) ++ [?z]) =>
             exists u, (r ++ [z])
         | |- occurs _ (?c :: (?u ++ [93; 41]) ++ [59]) => exists (c :: u), []
         | |- occurs _ (?c :: (?u ++ 93 :: 41 :: 59 :: ?r) ++ [?z]) =>
             exists (c :: u), (r ++ [z])
         end.
    all: rewrite <- ?app_assoc; reflexivity.
Qed.

End NoEarlyEnd.

(** ** The match at a well-formed call site *)

Section FirstWay.
Context (fl : flags).

Lemma first_ws r w s g st :
  Forall (fun c => is_space c = true) w →
  match s with c :: _ => is_space c = false | [] => True end →
  (∃ l, run fl r s g = st :: l) →
  ∃ l', run fl (ws_star ⨾ r) (w ++ s) g = st :: l'.
Proof. intros Hw Hs [l Hr]. by eapply run_ws_first. Qed.

Lemma first_lazy cs k r w s g st :
  Forall (fun c => accepts fl cs c = true) w → w ≠ [] →
  (∀ w1 c w2 g', w = w1 ++ c :: w2 → w1 ≠ [] → run fl r (c :: w2 ++ s) g' = []) →
  (∃ l, run fl r s (<[k := w]> g) = st :: l) →
  ∃ l', run fl (Grp k (Rep false 1 None cs) ⨾ r) (w ++ s) g = st :: l'.
Proof. intros Hw Hne Hcut [l Hr]. by eapply run_grp_lazy. Qed.

Lemma skip_ws_lit r w l c l' s g :
  l = c :: l' → Forall (fun c => is_space c = true) w → is_space c = false →
  run fl (ws_star ⨾ Lit l ⨾ r) (w ++ l ++ s) g = run fl r s g.
Proof. intros ->. apply run_ws_lit. Qed.

Lemma grp_until_lit cs k r w l c l' s g :
  l = c :: l' → accepts fl cs c = false →
  Forall (fun c => accepts fl cs c = true) w → w ≠ [] →
  run fl (Grp k (Rep true 1 None cs) ⨾ Lit l ⨾ r) (w ++ l ++ s) g
  = run fl r s (<[k := w]> g).
Proof.
  intros -> Hc Hw Hne. rewrite run_grp_greedy; try done.
  - apply run_cat_lit.
  - intros c' s' g' Hc'. apply run_cat_lit_other. congruence.
Qed.

Lemma solid_head_app (w s : text) :
  starts_solid w →
  match w ++ s with c :: _ => is_space c = false | [] => True end.
Proof. by destruct w. Qed.

End FirstWay.

Lemma ends_solid_suffix (w1 w2 : text) c :
  ends_solid (w1 ++ c :: w2) → ends_solid (c :: w2).
Proof. unfold ends_solid. by rewrite last_app_cons. Qed.

Lemma space_forall fl (w : text) :
  Forall (fun c => is_space c = true) w →
  Forall (fun c => accepts fl Space c = true) w.
Proof. done. Qed.

(** At a well-formed call site the pattern matches, and the way the
    engine prefers captures the indentation, the id, the method and the
    params whole, stopping right after the closing. *)
Lemma site_match L ind i m p post :
  wf_layout L → well_formed_call ind i m p →
  match_here script_flags pattern false (call_site L ind i m p ++ post)
  = Some (post, captured ind i m p).
Proof.
  intros [Hsp Hqt] ((Hind & Hws & Hi & Hic & Hm & Hmc & Hp) & Hsi & Hsm & Hsp' & Hend & Hno).
  rewrite match_here_head.
  assert (∃ l, run script_flags pattern (call_site L ind i m p ++ post) ∅
               = (post, captured ind i m p) :: l) as [l ->]; [|done].
  apply no_comma_forall in Hic, Hmc.
  unfold call_site, key, opening, captured, pattern,
    ws_plus, no_comma_plus, any_plus_lazy.
  rewrite <- !app_assoc. cbn [app].
  erewrite (grp_until_lit script_flags Space 1 _ ind _ 36); try done.
  rewrite (run_ws_quote script_flags _ _ _ _ _ (Hsp _) (Hqt _)).
  rewrite run_cat_lit, (run_cat_quote script_flags _ _ _ _ (Hqt _)).
  erewrite (skip_ws_lit script_flags _ _ _ 61); try done.
  rewrite (run_ws_quote script_flags _ _ _ _ _ (Hsp _) (Hqt _)).
  rewrite run_cat_lit, (run_cat_quote script_flags _ _ _ _ (Hqt _)).
  erewrite (skip_ws_lit script_flags _ _ _ 44); try done.
  rewrite (run_ws_quote script_flags _ _ _ _ _ (Hsp _) (Hqt _)).
  rewrite run_cat_lit, (run_cat_quote script_flags _ _ _ _ (Hqt _)).
  erewrite (skip_ws_lit script_flags _ _ _ 61); try done.
  apply first_ws; [apply Hsp | by apply solid_head_app |].
  erewrite (grp_until_lit script_flags _ 2 _ i _ 44); try done.
  rewrite (run_ws_quote script_flags _ _ _ _ _ (Hsp _) (Hqt _)).
  rewrite run_cat_lit, (run_cat_quote script_flags _ _ _ _ (Hqt _)).
  erewrite (skip_ws_lit script_flags _ _ _ 61); try done.
  apply first_ws; [apply Hsp | by apply solid_head_app |].
  erewrite (grp_until_lit script_flags _ 3 _ m _ 44); try done.
  rewrite (run_ws_quote script_flags _ _ _ _ _ (Hsp _) (Hqt _)).
  rewrite run_cat_lit, (run_cat_quote script_flags _ _ _ _ (Hqt _)).
  erewrite (skip_ws_lit script_flags _ _ _ 61); try done.
  apply first_ws; [apply Hsp | by apply solid_head_app |].
  apply first_lazy; [by apply Forall_forall | done | |].
  - intros w1 c w2 g' -> _.
    apply (no_early_terminator script_flags (trailing_comma L) (sp L 13) post
             (c :: w2) g' (Hsp _)).
    + by eapply ends_solid_suffix.
    + intros Ho. apply Hno. by apply occurs_app_r.
  - apply (terminator_here script_flags (trailing_comma L) (sp L 13) post _ (Hsp _)).
Qed.

(** ** Finding a call site in a text *)

Lemma search_at fl r pre s1 rest g :
  (∀ a b, pre = a ++ b → b ≠ [] → match_here fl r false (b ++ s1) = None) →
  match_here fl r false s1 = Some (rest, g) →
  search fl r false (pre ++ s1) = Some (pre, g, rest).
Proof.
  intros Hnone Hm. induction pre as [|c pre IH].
  - cbn [app]. destruct s1; cbn [search]; by rewrite Hm.
  - assert (match_here fl r false (c :: pre ++ s1) = None) as H0.
    { by apply (Hnone [] (c :: pre)). }
    cbn [app search]. rewrite H0.
    rewrite IH; [done|]. intros a b -> Hb. by apply (Hnone (c :: a) b).
Qed.

Lemma split_at_first_solid (w w' : text) c c' T T' :
  Forall (fun x => is_space x = true) w → Forall (fun x => is_space x = true) w' →
  is_space c = false → is_space c' = false →
  w ++ c :: T = w' ++ c' :: T' → w = w' ∧ c = c' ∧ T = T'.
Proof.
  intros Hw. revert w'. induction Hw as [|x w Hx Hw IH]; intros w' Hw' Hc Hc' Heq.
  - destruct Hw' as [|x' w' Hx' _]; simplify_eq/=; [done | congruence].
  - destruct Hw' as [|x' w' Hx' Hw']; simplify_eq/=; [congruence|].
    destruct (IH w' Hw' Hc Hc') as (-> & -> & ->); done.
Qed.

Lemma solid_prefix (v y u z : text) c0 :
  Forall (fun x => is_space x = false) v → is_space c0 = true →
  v ++ y = u ++ c0 :: z → ∃ u', u = v ++ u'.
Proof.
  intros Hv Hc. revert u. induction Hv as [|x v Hx Hv IH]; intros u Heq.
  - by exists u.
  - destruct u as [|x' u]; simplify_eq/=; [congruence|].
    destruct (IH u) as [u' ->]; [done|]. by exists u'.
Qed.

Lemma first_solid (b : text) c :
  last b = Some c → is_space c = false →
  ∃ w x b', b = w ++ x :: b' ∧ Forall (fun y => is_space y = true) w ∧
            is_space x = false.
Proof.
  intros Hl Hc. induction b as [|y b IH]; [done|].
  destruct (is_space y) eqn:Hy.
  - destruct b as [|y' b]; [simplify_eq/=; congruence|].
    destruct IH as (w & x & b' & Heq & Hw & Hx); [done|].
    exists (y :: w), x, b'. rewrite Heq. repeat split; [by constructor | done].
  - exists [], y, b. done.
Qed.

(** No match starts in a quiet text before a call site. *)
Lemma quiet_no_match pre ind X a b :
  quiet_before pre → ind ≠ [] → Forall (fun c => is_space c = true) ind →
  pre = a ++ b → b ≠ [] →
  match_here script_flags pattern false (b ++ ind ++ opening ++ X) = None.
Proof.
  intros [Hno Hlast] Hind Hws -> Hb.
  destruct (match_here _ _ _ _) as [[rest g]|] eqn:Hm; [|done]. exfalso.
  apply match_here_elem, pattern_sound in Hm
    as (L' & ind' & i' & m' & p' & _ & (Hind' & Hws' & _) & Heq & _).
  destruct (call_site_opening L' ind' i' m' p') as [Y HY]. rewrite HY in Heq.
  destruct (last b) as [c|] eqn:Hlb; [|by apply last_None in Hlb].
  rewrite last_app, Hlb in Hlast.
  destruct (first_solid b c Hlb Hlast) as (w & x & b' & -> & Hw & Hx).
  rewrite <- !app_assoc in Heq. cbn [app] in Heq.
  change opening with (36 :: txt "requestObject" ++ txt " = RequestObjectData::from([")
    in Heq.
  cbn [app] in Heq.
  destruct (split_at_first_solid w ind' x 36 _ _ Hw Hws' Hx eq_refl Heq)
    as (-> & -> & Hrest).
  destruct ind as [|c0 ind0]; [done|]. inversion Hws as [|?? Hc0 _]; subst.
  rewrite <- !app_assoc in Hrest. symmetry in Hrest.
  destruct (solid_prefix (txt "requestObject") _ b' _ c0
              ltac:(by vm_compute; repeat constructor) Hc0 Hrest) as [u' ->].
  apply Hno. exists (a ++ ind'), u'.
  change (txt "$requestObject") with (36 :: txt "requestObject").
  rewrite <- !app_assoc. reflexivity.
Qed.

Lemma find_site L ind i m p pre post :
  wf_layout L → well_formed_call ind i m p → quiet_before pre →
  find (pre ++ call_site L ind i m p ++ post)
  = Some (pre, captured ind i m p, post).
Proof.
  intros HL Hwf Hq. apply search_at.
  - intros a b Hab Hb.
    destruct (call_site_opening L ind i m p) as [Y ->].
    rewrite <- !app_assoc. destruct Hwf as ((Hind & Hws & _) & _).
    by eapply quiet_no_match.
  - by apply site_match.
Qed.

(** ** Call sites after calm text *)

(** In a word that passes [blank_then_solid] a blank is followed by a
    solid character other than [$]. *)
Lemma blank_then_solid_spec (v a K2 : text) c :
  blank_then_solid v = true → v = a ++ c :: K2 → is_space c = true →
  ∃ c1 r, K2 = c1 :: r ∧ is_space c1 = false ∧ c1 ≠ 36.
Proof.
  revert v. induction a as [|x a IH]; intros v Hv -> Hc.
  - cbn [app blank_then_solid] in Hv. rewrite Hc in Hv.
    destruct K2 as [|c1 r]; [done|].
    apply andb_prop in Hv as [Hv _]. apply andb_prop in Hv as [H1 H2].
    exists c1, r. split; [done|]. split; [by destruct (is_space c1)|].
    intros ->. done.
  - cbn [app blank_then_solid] in Hv. apply andb_prop in Hv as [_ Hv].
    by apply (IH _ Hv).
Qed.

(** A word [K] met at the end of [a]: either all of it lies in [a] or
    it runs over the character after [a]. *)
Lemma straddle (K y a b : text) c :
  K ++ y = a ++ c :: b →
  (∃ a2, a = K ++ a2) ∨ (∃ K2, K = a ++ c :: K2 ∧ b = K2 ++ y).
Proof.
  revert a. induction K as [|k K IH]; intros a Heq.
  - left. by exists a.
  - destruct a as [|x a]; cbn [app] in Heq; injection Heq as Hk Heq; subst.
    + right. by exists K.
    + destruct (IH a Heq) as [[a2 ->]|(K2 & -> & ->)].
      * left. by exists a2.
      * right. by exists K2.
Qed.

Lemma quiet_calm pre : quiet_before pre → calm_before pre.
Proof.
  intros [Hno Hlast]. split; [|done]. intros (a & b & ->). apply Hno.
  exists a, (txt " = RequestObjectData::from([" ++ b).
  change opening with (txt "$requestObject" ++ txt " = RequestObjectData::from([").
  by rewrite <- !app_assoc.
Qed.

(** No match starts in a calm text before a call site. *)
Lemma calm_no_match pre ind X a b :
  calm_before pre → ind ≠ [] → Forall (fun c => is_space c = true) ind →
  pre = a ++ b → b ≠ [] →
  match_here script_flags pattern false (b ++ ind ++ opening ++ X) = None.
Proof.
  intros [Hno Hlast] Hind Hws -> Hb.
  destruct (match_here _ _ _ _) as [[rest g]|] eqn:Hm; [|done]. exfalso.
  apply match_here_elem, pattern_sound in Hm
    as (L' & ind' & i' & m' & p' & _ & (Hind' & Hws' & _) & Heq & _).
  destruct (call_site_opening L' ind' i' m' p') as [Y HY]. rewrite HY in Heq.
  destruct (last b) as [c|] eqn:Hlb; [|by apply last_None in Hlb].
  rewrite last_app, Hlb in Hlast.
  destruct (first_solid b c Hlb Hlast) as (w & x & b' & -> & Hw & Hx).
  rewrite <- !app_assoc in Heq. cbn [app] in Heq.
  change opening with (36 :: txt "requestObject = RequestObjectData::from([") in Heq.
  cbn [app] in Heq.
  destruct (split_at_first_solid w ind' x 36 _ _ Hw Hws' Hx eq_refl Heq)
    as (-> & -> & Hrest).
  destruct ind as [|c0 ind0]; [done|]. inversion Hws as [|?? Hc0 Hws0]; subst.
  rewrite <- ?app_assoc in Hrest. symmetry in Hrest. cbn [app] in Hrest.
  destruct (straddle _ _ _ _ _ Hrest) as [[a2 ->]|(K2 & HK & Hb')].
  - apply Hno. exists (a ++ ind'), a2.
    change opening with (36 :: txt "requestObject = RequestObjectData::from([").
    rewrite <- !app_assoc. reflexivity.
  - destruct (blank_then_solid_spec (txt "requestObject = RequestObjectData::from([")
                _ _ _ ltac:(vm_compute; reflexivity) HK Hc0)
      as (c1 & r & -> & Hc1 & Hne).
    destruct ind0 as [|c2 ind0]; simplify_eq/=.
    inversion Hws0; subst. congruence.
Qed.

(** The leftmost match of a text is its first well-formed call site
    when the text before it is calm. *)
Lemma find_site_calm L ind i m p pre post :
  wf_layout L → well_formed_call ind i m p → calm_before pre →
  find (pre ++ call_site L ind i m p ++ post)
  = Some (pre, captured ind i m p, post).
Proof.
  intros HL Hwf Hq. apply search_at.
  - intros a b Hab Hb.
    destruct (call_site_opening L ind i m p) as [Y ->].
    rewrite <- !app_assoc. destruct Hwf as ((Hind & Hws & _) & _).
    by eapply calm_no_match.
  - by apply site_match.
Qed.

Lemma calm_nothing : calm_before [].
Proof. split; [|done]. apply not_occurs. vm_compute. reflexivity. Qed.

(** Call sites in a row are found one after the other, and replaced. *)
Lemma occurrences_laid_out ss tail :
  Forall site_ok ss →
  occurrences (laid_out ss tail) = found ss tail ++ occurrences tail ∧
  transform (laid_out ss tail) = rewritten ss (transform tail).
Proof.
  induction 1 as [|s ss (HL & Hwf & Hcalm) _ [IH1 IH2]]; [done|].
  cbn [laid_out found rewritten].
  pose proof (find_site_calm _ _ _ _ _ _ (laid_out ss tail) HL Hwf Hcalm) as Hf.
  fold (site_text s) in Hf. split.
  - by rewrite occurrences_unfold, Hf, IH1.
  - by rewrite (transform_found _ _ _ _ Hf), transform_request_nested, IH2.
Qed.

(** A well-formed call site alone becomes its nested form. *)
Lemma site_alone L ind i m p :
  wf_layout L → well_formed_call ind i m p →
  transform (call_site L ind i m p) = nested ind i m p.
Proof.
  intros HL Hwf.
  pose proof (find_site_calm L ind i m p [] [] HL Hwf calm_nothing) as Hf.
  rewrite app_nil_r in Hf. cbn [app] in Hf.
  rewrite (transform_found _ _ _ _ Hf), transform_request_nested.
  by rewrite (transform_nothing _ find_empty), app_nil_r.
Qed.

(** ** Blanks in front of an expression *)

Lemma lstrip_split (w : text) :
  w = lead w ++ lstrip w ∧ Forall (fun c => is_space c = true) (lead w).
Proof.
  unfold lead. induction w as [|c w [IH1 IH2]]; [done|]. cbn [lstrip].
  destruct (is_space c) eqn:Hc.
  - assert (length (lstrip w) ≤ length w)%nat as Hle.
    { rewrite IH1 at 2. rewrite length_app. lia. }
    replace (length (c :: w) - length (lstrip w))%nat
      with (S (length w - length (lstrip w))) by (cbn [length]; lia).
    cbn [take app]. split; [by rewrite <- IH1 | by constructor].
  - rewrite Nat.sub_diag. done.
Qed.

Lemma lstrip_solid (w : text) : lstrip w ≠ [] → starts_solid (lstrip w).
Proof.
  induction w as [|c w IH]; [done|]. cbn [lstrip].
  destruct (is_space c) eqn:Hc; [done|]. by intros _.
Qed.

Lemma lstrip_suffix (w : text) : ∃ a, w = a ++ lstrip w.
Proof. eexists. apply lstrip_split. Qed.

Lemma lstrip_ends_solid (w : text) : ends_solid w → ends_solid (lstrip w).
Proof.
  induction w as [|c w IH]; [done|]. cbn [lstrip].
  destruct (is_space c) eqn:Hc; [|done]. intros He. apply IH.
  destruct w as [|c' w]; [|done]. unfold ends_solid in He. cbn in He.
  destruct He as [He _]. congruence.
Qed.

Lemma padded_wf L a b c :
  wf_layout L → Forall (fun x => is_space x = true) a →
  Forall (fun x => is_space x = true) b → Forall (fun x => is_space x = true) c →
  wf_layout (padded L a b c).
Proof.
  intros [Hsp Hqt] Ha Hb Hc. split; [|done]. intros j. cbn [padded sp].
  repeat case_bool_decide; try done; by apply Forall_app.
Qed.

(** Blanks between an arrow and its expression are the layout's. *)
Lemma call_site_padded L ind a b c i m p :
  call_site L ind (a ++ i) (b ++ m) (c ++ p) = call_site (padded L a b c) ind i m p.
Proof.
  unfold call_site, key, padded. cbn [sp qt trailing_comma].
  repeat (rewrite ?bool_decide_eq_true_2, ?bool_decide_eq_false_2 by lia).
  rewrite <- !app_assoc. done.
Qed.

Lemma call_site_stripped L ind i m p :
  call_site L ind i m p
  = call_site (padded L (lead i) (lead m) (lead p)) ind (lstrip i) (lstrip m) (lstrip p).
Proof.
  rewrite <- call_site_padded.
  by rewrite <- (proj1 (lstrip_split i)), <- (proj1 (lstrip_split m)),
    <- (proj1 (lstrip_split p)).
Qed.

Lemma stripped_well_formed ind i m p :
  captures_ok ind i m p → lstrip i ≠ [] → lstrip m ≠ [] →
  ends_solid p → ¬ occurs closing p →
  well_formed_call ind (lstrip i) (lstrip m) (lstrip p).
Proof.
  intros (Hind & Hws & Hi & Hic & Hm & Hmc & Hp) Hsi Hsm Hend Hno.
  pose proof (lstrip_ends_solid p Hend) as Hend'.
  assert (lstrip p ≠ []) as Hsp by (by intros E; rewrite E in Hend').
  repeat split; try done.
  - destruct (lstrip_suffix i) as [a Ha]. rewrite Ha in Hic.
    by apply not_elem_of_app in Hic as [_ ?].
  - destruct (lstrip_suffix m) as [a Ha]. rewrite Ha in Hmc.
    by apply not_elem_of_app in Hmc as [_ ?].
  - by apply lstrip_solid.
  - by apply lstrip_solid.
  - by apply lstrip_solid.
  - intros Ho. apply Hno. destruct (lstrip_suffix p) as [a Ha]. rewrite Ha.
    by apply occurs_app_r.
Qed.

(** The leftmost match of a text is its first call site of this kind
    when the text before it is calm; blanks in front of the expressions
    are not captured. *)
Lemma find_site_padded L ind i m p pre post :
  wf_layout L → captures_ok ind i m p → lstrip i ≠ [] → lstrip m ≠ [] →
  ends_solid p → ¬ occurs closing p → calm_before pre →
  find (pre ++ call_site L ind i m p ++ post)
  = Some (pre, captured ind (lstrip i) (lstrip m) (lstrip p), post).
Proof.
  intros HL Hok Hi Hm Hend Hno Hcalm. rewrite call_site_stripped.
  apply find_site_calm; [by apply padded_wf; try apply lstrip_split | | done].
  by apply stripped_well_formed.
Qed.

(** A call site after calm text is the leftmost match, and group 1 is
    the whitespace in front of it. *)
Lemma site_found L ind i m p pre post :
  wf_layout L → captures_ok ind i m p → calm_before pre →
  ∃ g rest, find (pre ++ call_site L ind i m p ++ post) = Some (pre, g, rest) ∧
            group g 1 = ind.
Proof.
  intros HL Hok Hcalm.
  destruct (match_here script_flags pattern false (call_site L ind i m p ++ post))
    as [[rest g]|] eqn:Hm.
  - exists g, rest. split.
    + apply search_at; [|done]. intros a b Hab Hb.
      destruct (call_site_opening L ind i m p) as [Y ->].
      rewrite <- !app_assoc. destruct Hok as (Hind & Hws & _).
      by eapply calm_no_match.
    + apply match_here_elem, pattern_sound in Hm
        as (L' & ind' & i' & m' & p' & _ & (Hind' & Hws' & _) & Heq & ->).
      destruct (group_captured ind' i' m' p') as (-> & _).
      destruct (call_site_opening L ind i m p) as [Y HY].
      destruct (call_site_opening L' ind' i' m' p') as [Y' HY'].
      rewrite HY, HY' in Heq. rewrite <- !app_assoc in Heq.
      change opening with (36 :: txt "requestObject = RequestObjectData::from([") in Heq.
      cbn [app] in Heq. destruct Hok as (_ & Hws & _).
      by destruct (split_at_first_solid ind ind' 36 36 _ _ Hws Hws' eq_refl eq_refl Heq)
        as (-> & _).
  - exfalso. apply match_here_none in Hm.
    pose proof (pattern_complete L ind i m p post HL Hok) as Hin.
    rewrite Hm in Hin. by apply elem_of_nil in Hin.
Qed.

Lemma wf_with_comma L tc : wf_layout L → wf_layout (with_comma L tc).
Proof. by intros [? ?]. Qed.

(** C9, as the specification has it, fails for a call whose params are
    followed by a blank: before [,]);] the blank is captured into the
    params and written back in front of the template's comma, before
    []);] it is not. Both calls are matched, with different params, and
    the outputs differ. *)
Lemma blank_before_comma_kept :
  find (blank_comma_call true)
  = Some ([], captured (txt "    ") (txt "$id") (txt "'foo'") (txt "$args "), []) ∧
  find (blank_comma_call false)
  = Some ([], captured (txt "    ") (txt "$id") (txt "'foo'") (txt "$args"), []) ∧
  transform (blank_comma_call true) ≠ transform (blank_comma_call false).
Proof.
  split; [vm_compute; reflexivity|]. split; [vm_compute; reflexivity|].
  intros H. apply (f_equal length) in H. vm_compute in H. discriminate.
Qed.

(** C9, amended: at a call site whose params neither end in whitespace
    or a comma nor hold the closing, and whose id and method are not
    blank, the comma after the params is accepted and left out of the
    captured params: with it or without it the match reports the same
    groups (the expressions without the blanks in front of them) and
    ends at the same place. After any number of well-formed call sites
    and a calm stretch, both variants give the same output, the
    template writing its own comma after the arguments. *)
Theorem trailing_comma_same_output ss L ind i m p pre post :
  Forall site_ok ss →
  wf_layout L → captures_ok ind i m p → lstrip i ≠ [] → lstrip m ≠ [] →
  ends_solid p → ¬ occurs closing p → calm_before pre →
  (∀ tc, find (pre ++ call_site (with_comma L tc) ind i m p ++ post)
         = Some (pre, captured ind (lstrip i) (lstrip m) (lstrip p), post)) ∧
  transform (laid_out ss (pre ++ call_site (with_comma L true) ind i m p ++ post))
  = transform (laid_out ss (pre ++ call_site (with_comma L false) ind i m p ++ post)) ∧
  transform (laid_out ss (pre ++ call_site (with_comma L true) ind i m p ++ post))
  = rewritten ss (pre ++ nested ind (lstrip i) (lstrip m) (lstrip p) ++ transform post).
Proof.
  intros Hss HL Hok Hi Hm Hend Hno Hq.
  assert (∀ tc, find (pre ++ call_site (with_comma L tc) ind i m p ++ post)
                = Some (pre, captured ind (lstrip i) (lstrip m) (lstrip p), post))
    as Hfind.
  { intros tc. apply find_site_padded; auto using wf_with_comma. }
  split; [exact Hfind|].
  rewrite !(proj2 (occurrences_laid_out ss _ Hss)).
  rewrite !(transform_found _ _ _ _ (Hfind _)), transform_request_nested. done.
Qed.

Lemma plain_wf tc : wf_layout (plain tc).
Proof.
  split; intros k; [|by left]. cbn [plain sp].
  case_bool_decide; [constructor | by repeat constructor].
Qed.

Lemma sample_well_formed :
  well_formed_call (txt "    ") (txt "$id") (txt "'foo'") (txt "$args").
Proof.
  unfold well_formed_call, captures_ok. repeat split; try done.
  - by repeat constructor.
  - apply (bool_decide_unpack _). vm_compute. exact I.
  - apply (bool_decide_unpack _). vm_compute. exact I.
  - apply not_occurs. vm_compute. reflexivity.
Qed.

Lemma nothing_before : quiet_before [].
Proof. split; [|done]. apply not_occurs. vm_compute. reflexivity. Qed.

Lemma second_well_formed :
  well_formed_call (NL ++ txt "    ") (txt "7") (txt "'bar'") (txt "[1, 2]").
Proof.
  unfold well_formed_call, captures_ok. repeat split; try done.
  - by repeat constructor.
  - apply (bool_decide_unpack _). vm_compute. exact I.
  - apply (bool_decide_unpack _). vm_compute. exact I.
  - apply not_occurs. vm_compute. reflexivity.
Qed.

Lemma sample_site_ok : site_ok sample_site.
Proof.
  split; [apply plain_wf|]. split; [apply sample_well_formed | apply calm_nothing].
Qed.

Lemma trailing_comma_same_output_witness :
  (∀ tc, find ([] ++ call_site (with_comma (plain false) tc)
                 (NL ++ txt "    ") (txt "7") (txt "'bar'") (txt "[1, 2]") ++ [])
         = Some ([], captured (NL ++ txt "    ") (lstrip (txt "7"))
                       (lstrip (txt "'bar'")) (lstrip (txt "[1, 2]")),
                 [])) ∧
  transform (laid_out [sample_site]
               ([] ++ call_site (with_comma (plain false) true)
                        (NL ++ txt "    ") (txt "7") (txt "'bar'") (txt "[1, 2]") ++ []))
  = transform (laid_out [sample_site]
                 ([] ++ call_site (with_comma (plain false) false)
                          (NL ++ txt "    ") (txt "7") (txt "'bar'") (txt "[1, 2]") ++ [])) ∧
  transform (laid_out [sample_site]
               ([] ++ call_site (with_comma (plain false) true)
                        (NL ++ txt "    ") (txt "7") (txt "'bar'") (txt "[1, 2]") ++ []))
  = rewritten [sample_site]
      ([] ++ nested (NL ++ txt "    ") (lstrip (txt "7")) (lstrip (txt "'bar'"))
                    (lstrip (txt "[1, 2]"))
          ++ transform []).
Proof.
  apply (trailing_comma_same_output [sample_site] (plain false)
           (NL ++ txt "    ") (txt "7") (txt "'bar'") (txt "[1, 2]") [] []).
  - constructor; [apply sample_site_ok | constructor].
  - apply plain_wf.
  - apply second_well_formed.
  - vm_compute. discriminate.
  - vm_compute. discriminate.
  - apply second_well_formed.
  - apply second_well_formed.
  - apply calm_nothing.
Defined.

(** ** Whitespace in front of the call *)

(** C10: the first group needs at least one whitespace character, and
    takes any, newlines too. A match is always a non-empty run of
    whitespace followed by the opening, so a text in which no opening
    has whitespace right before it (a call in column zero at the very
    start, say) has no match and comes out unchanged. And whatever
    whitespace stands in front of a call site after calm text, line
    ends and blank lines included ([is_space] holds of the newline),
    the call is the leftmost match, group 1 is all of that whitespace,
    and the callback's text is put in its place. *)
Theorem column_zero_call_not_transformed t :
  (∀ pre g rest, find t = Some (pre, g, rest) →
     group g 1 ≠ [] ∧ Forall (fun c => is_space c = true) (group g 1) ∧
     ∃ b, t = pre ++ group g 1 ++ opening ++ b) ∧
  ((∀ w, is_space w = true → ¬ occurs (w :: opening) t) →
     find t = None ∧ transform t = t) ∧
  (∀ L ind i m p pre post,
     t = pre ++ call_site L ind i m p ++ post →
     wf_layout L → captures_ok ind i m p → calm_before pre →
     ∃ g rest, find t = Some (pre, g, rest) ∧ group g 1 = ind ∧
               transform t = pre ++ transform_request g ++ transform rest) ∧
  is_space 10 = true.
Proof.
  assert (Hshape : ∀ pre g rest, find t = Some (pre, g, rest) →
     group g 1 ≠ [] ∧ Forall (fun c => is_space c = true) (group g 1) ∧
     ∃ b, t = pre ++ group g 1 ++ opening ++ b).
  { intros pre g rest (L & ind & i & m & p & _ & (Hne & Hws & _) & -> & ->)%find_call_site.
    destruct (group_captured ind i m p) as (-> & _).
    repeat split; auto. destruct (call_site_opening L ind i m p) as [b ->].
    exists (b ++ rest). by rewrite <- !app_assoc. }
  split; [exact Hshape|]. split; [|split; [|done]].
  - intros Hno. assert (find t = None) as Hnone.
    { destruct (find t) as [[[pre g] rest]|] eqn:Hf; [|done]. exfalso.
      destruct (Hshape _ _ _ eq_refl) as (Hne & Hws & b & Ht).
      revert Hne Hws Ht. generalize (group g 1). intros gi.
      destruct gi as [|c ind _] using rev_ind; intros Hne Hws Ht; [done|].
      apply Forall_app in Hws as [_ Hc]. inversion Hc as [|?? Hsp _]; subst.
      apply (Hno c Hsp). exists (pre ++ ind), b.
      rewrite <- !app_assoc. reflexivity. }
    split; [done|]. by apply transform_nothing.
  - intros L ind i m p pre post -> HL Hok Hcalm.
    destruct (site_found L ind i m p pre post HL Hok Hcalm) as (g & rest & Hf & Hg).
    exists g, rest. split; [done|]. split; [done|]. by apply transform_found.
Qed.

Lemma column_zero_call_not_transformed_witness :
  (find column_zero_in = None ∧ transform column_zero_in = column_zero_in) ∧
  (∃ g rest, find tagged_sample = Some (txt "<?php", g, rest) ∧
             group g 1 = NL ++ txt "    " ∧
             transform tagged_sample
             = txt "<?php" ++ transform_request g ++ transform rest).
Proof.
  split.
  - apply (column_zero_call_not_transformed column_zero_in).
    intros w Hw ([|c a] & b & H).
    + apply (f_equal head) in H. vm_compute in H. injection H as <-.
      vm_compute in Hw. discriminate.
    + apply (f_equal tail) in H. cbn [tail app] in H.
      apply (not_occurs opening (tail column_zero_in)); [vm_compute; reflexivity|].
      exists (a ++ [w]), b. rewrite H, <- app_assoc. reflexivity.
  - apply (column_zero_call_not_transformed tagged_sample)
      with (L := plain false) (i := txt "$id") (m := txt "'foo'") (p := txt "$args")
           (post := []).
    + vm_compute. reflexivity.
    + apply plain_wf.
    + unfold captures_ok. repeat split; try done.
      * by repeat constructor.
      * apply (bool_decide_unpack _). vm_compute. exact I.
      * apply (bool_decide_unpack _). vm_compute. exact I.
    + split; [|done]. apply not_occurs. vm_compute. reflexivity.
Defined.

(** ** Commas in the id *)

Lemma next_solid_ws (w : text) c s :
  Forall (fun x => is_space x = true) w → is_space c = false →
  next_solid (w ++ c :: s) = Some c.
Proof.
  intros Hw Hc. induction Hw as [|x w Hx _ IH]; cbn [app next_solid].
  - by rewrite Hc.
  - by rewrite Hx.
Qed.

Lemma next_solid_app (a b : text) c :
  next_solid a = Some c → next_solid (a ++ b) = Some c.
Proof.
  induction a as [|x a IH]; [done|]. cbn [app next_solid].
  destruct (is_space x); auto.
Qed.

Lemma split_at_first_comma (a b T T' : text) :
  44 ∉ a → 44 ∉ b → a ++ 44 :: T = b ++ 44 :: T' → a = b ∧ T = T'.
Proof.
  revert b. induction a as [|x a IH]; intros b Ha Hb Heq.
  - destruct b as [|y b]; simplify_eq/=; [done|].
    exfalso. apply Hb. by left.
  - destruct b as [|y b]; simplify_eq/=.
    + exfalso. apply Ha. by left.
    + rewrite not_elem_of_cons in Ha, Hb.
      destruct (IH b) as [-> ->]; tauto.
Qed.

Lemma spaces_no_comma (w : text) :
  Forall (fun x => is_space x = true) w → 44 ∉ w.
Proof.
  intros Hw Hin. rewrite Forall_forall in Hw. by specialize (Hw _ Hin).
Qed.

(** Up to the id the pattern follows the call site step by step. *)
Lemma run_until_id L ind i m p post :
  wf_layout L → ind ≠ [] → Forall (fun c => is_space c = true) ind →
  run script_flags pattern (call_site L ind i m p ++ post) ∅
  = run script_flags id_onwards
      (sp L 6 ++ i ++ after_id L m p ++ post) (<[1%nat := ind]> ∅).
Proof.
  intros [Hsp Hqt] Hind Hws.
  unfold call_site, after_id, key, opening, pattern, id_onwards, ws_plus.
  rewrite <- !app_assoc. cbn [app].
  erewrite (grp_until_lit script_flags Space 1 _ ind _ 36); try done.
  rewrite (run_ws_quote script_flags _ _ _ _ _ (Hsp _) (Hqt _)).
  rewrite run_cat_lit, (run_cat_quote script_flags _ _ _ _ (Hqt _)).
  erewrite (skip_ws_lit script_flags _ _ _ 61); try done.
  rewrite (run_ws_quote script_flags _ _ _ _ _ (Hsp _) (Hqt _)).
  rewrite run_cat_lit, (run_cat_quote script_flags _ _ _ _ (Hqt _)).
  erewrite (skip_ws_lit script_flags _ _ _ 44); try done.
  rewrite (run_ws_quote script_flags _ _ _ _ _ (Hsp _) (Hqt _)).
  rewrite run_cat_lit, (run_cat_quote script_flags _ _ _ _ (Hqt _)).
  erewrite (skip_ws_lit script_flags _ _ _ 61); try done.
Qed.

(** After the id's first comma the pattern wants the method key. *)
Lemma id_onwards_stuck (w i1 T : text) g :
  Forall (fun c => is_space c = true) w → 44 ∉ i1 →
  (∀ q, next_solid T = Some q → ¬ is_quote q) →
  run script_flags id_onwards (w ++ i1 ++ 44 :: T) g = [].
Proof.
  intros Hw Hi1 HT.
  destruct (run script_flags id_onwards _ g) as [|[s' g'] l] eqn:Hrun; [done|].
  exfalso.
  assert ((s', g') ∈ run script_flags id_onwards (w ++ i1 ++ 44 :: T) g) as H.
  { rewrite Hrun. by left. }
  clear Hrun. unfold id_onwards, no_comma_plus in H.
  apply run_cat_elem in H as (s1 & g1 & H1 & H).
  apply ws_star_elem in H1 as (-> & w6 & Heq & Hw6).
  next_grp H i' Hi' Hil. next_lit H.
  next_ws H w7 Hw7. next_quote H q Hq.
  change (txt ",") with [44] in Heq. cbn [app] in Heq.
  rewrite (app_assoc w), (app_assoc w6) in Heq.
  apply split_at_first_comma in Heq as [_ HTeq].
  - apply (HT q); [|done]. rewrite HTeq.
    apply next_solid_ws; [done | by apply quote_not_space].
  - rewrite not_elem_of_app. split; [by apply spaces_no_comma | done].
  - rewrite not_elem_of_app. split; [by apply spaces_no_comma|].
    by apply no_comma_forall.
Qed.

Lemma next_solid_none (a : text) :
  next_solid a = None → Forall (fun x => is_space x = true) a.
Proof.
  induction a as [|x a IH]; [done|]. cbn [next_solid].
  destruct (is_space x) eqn:Hx; [|done]. intros H. constructor; auto.
Qed.

(** C8, as stated, fails: an id expression with a comma whose text goes
    on like the rest of a call is matched, and the call is rewritten
    with the id cut at its first comma. *)
Lemma comma_id_still_matched :
  44 ∈ comma_id ∧
  find comma_id_call
  = Some ([], captured (txt "    ") (txt "array(1") (txt "2")
                (txt "3), 'method' => 'foo', 'params' => $args"), []) ∧
  transform comma_id_call ≠ comma_id_call.
Proof.
  split; [|split].
  - apply (bool_decide_unpack _). vm_compute. exact I.
  - vm_compute. reflexivity.
  - apply longer_differs. vm_compute. discriminate.
Qed.

(** C8, amended: the id group takes comma-free text only, so the id of
    every match has no comma; and a call site whose id expression has a
    comma is not matched unless the text after the id's first comma
    reads on as a quoted key. *)
Theorem comma_in_id_not_matched L ind i1 i2 m p post :
  wf_layout L → ind ≠ [] → Forall (fun c => is_space c = true) ind →
  44 ∉ i1 →
  (∀ q, next_solid (i2 ++ txt ",") = Some q → ¬ is_quote q) →
  match_here script_flags pattern false
    (call_site L ind (i1 ++ txt "," ++ i2) m p ++ post) = None ∧
  (∀ t pre g rest, find t = Some (pre, g, rest) → 44 ∉ group g 2).
Proof.
  intros HL Hind Hws Hi1 Hnext. split.
  - apply match_here_none. rewrite run_until_id by done.
    rewrite <- !app_assoc. change (txt "," ++ i2 ++ ?x) with (44 :: i2 ++ x).
    apply id_onwards_stuck; [apply HL | done |].
    intros q Hq. apply Hnext.
    unfold after_id in Hq. rewrite <- !app_assoc in Hq.
    rewrite (app_assoc i2 (txt ",")) in Hq.
    destruct (next_solid (i2 ++ txt ",")) as [c|] eqn:Hc.
    + by rewrite (next_solid_app _ _ c Hc) in Hq.
    + apply next_solid_none, Forall_app in Hc as [_ Hc].
      inversion Hc as [|?? Hcomma _]. discriminate.
  - intros t pre g rest (L' & ind' & i' & m' & p' & _ & Hok & _ & ->)%find_call_site.
    destruct (group_captured ind' i' m' p') as (_ & -> & _).
    apply Hok.
Qed.

Lemma comma_in_id_not_matched_witness :
  match_here script_flags pattern false
    (call_site (plain false) (txt "    ") (txt "foo(1" ++ txt "," ++ txt " 2)")
       (txt "'foo'") (txt "$args") ++ []) = None ∧
  (∀ t pre g rest, find t = Some (pre, g, rest) → 44 ∉ group g 2).
Proof.
  apply (comma_in_id_not_matched (plain false) (txt "    ")
           (txt "foo(1") (txt " 2)") (txt "'foo'") (txt "$args") []).
  - apply plain_wf.
  - done.
  - by repeat constructor.
  - apply (bool_decide_unpack _). vm_compute. exact I.
  - intros q Hq. vm_compute in Hq. injection Hq as <-.
    intros [Hq | Hq]; discriminate Hq.
Defined.

(** ** Calls that lack an entry *)












(** ** Where the marker can be after a pass *)

Section Clean.
Context (K : text).

Lemma prefix_or_sep (y a b : text) c :
  K ++ y = a ++ c :: b → (∃ a2, a = K ++ a2) ∨ c ∈ K.
Proof.
  revert a. induction K as [|k K' IH]; intros a Heq.
  - left. by exists a.
  - destruct a as [|x a]; simplify_eq/=.
    + right. by left.
    + destruct (IH a) as [[a2 ->] | Hc]; [done | left; by exists a2 |].
      right. by right.
Qed.

(** A word cannot lie across a character it does not contain. *)
Lemma clean_sep (a b : text) c :
  ¬ occurs K a → c ∉ K → ¬ occurs K b → ¬ occurs K (a ++ c :: b).
Proof.
  intros Ha Hc Hb (x & y & Heq). revert x Ha Heq.
  induction a as [|a0 a IH]; intros x Ha Heq.
  - destruct x as [|x0 x]; cbn [app] in Heq.
    + destruct K as [|k K']; [apply Ha; by exists [], [] |].
      simplify_eq/=. apply Hc. by left.
    + simplify_eq/=. apply Hb. by exists x, y.
  - destruct x as [|x0 x]; cbn [app] in Heq.
    + symmetry in Heq. change (a0 :: a ++ c :: b) with ((a0 :: a) ++ c :: b) in Heq.
      apply prefix_or_sep in Heq as [[a2 Heq] | Hin]; [|done].
      apply Ha. exists [], a2. by rewrite Heq.
    + simplify_eq/=. apply (IH x); [|done].
      intros Ho. apply Ha. by apply (occurs_app_r K [x0]).
Qed.

Lemma clean_run (P : N → Prop) (w b : text) :
  (∀ c, P c → c ∉ K) → K ≠ [] →
  Forall P w → ¬ occurs K b → ¬ occurs K (w ++ b).
Proof.
  intros HP HK Hw Hb. induction Hw as [|c w Hc _ IH]; [done|].
  apply (clean_sep [] (w ++ b) c); auto.
  intros (x & y & Heq). symmetry in Heq.
  apply app_eq_nil in Heq as [_ Heq]. apply app_eq_nil in Heq as [Heq _]. done.
Qed.

End Clean.

Lemma space_not_marker c : is_space c = true → c ∉ marker.
Proof.
  intros Hc Hin. unfold marker in Hin. vm_compute in Hin.
  repeat (apply elem_of_cons in Hin as [-> | Hin]; [discriminate Hc|]).
  by apply elem_of_nil in Hin.
Qed.

Ltac clean_step :=
  first
    [ assumption
    | apply clean_sep;
        [ first [ assumption | apply not_occurs; vm_compute; reflexivity ]
        | first [ by apply space_not_marker
                | apply (bool_decide_unpack _); vm_compute; exact I ]
        | ]
    | apply (clean_run marker (fun c => is_space c = true));
        [ apply space_not_marker | done | assumption | ] ].

(** The replacement brings no marker of its own. *)
Lemma clean_replacement pre ind i m p R :
  ind ≠ [] → Forall (fun c => is_space c = true) ind →
  ¬ occurs marker pre → ¬ occurs marker i → ¬ occurs marker m →
  ¬ occurs marker p → ¬ occurs marker R →
  ¬ occurs marker (pre ++ nested ind i m p ++ R).
Proof.
  intros Hne Hws Hpre Hi Hm Hp HR.
  destruct ind as [|c0 ind0] eqn:Hind; [done|]. rewrite <- Hind in *.
  assert (Forall (fun c => is_space c = true) ind0 ∧ is_space c0 = true)
    as [Hws0 Hc0].
  { rewrite Hind in Hws. by inversion Hws. }
  assert (pre ++ nested ind i m p ++ R =
    pre ++ c0 :: ind0 ++
    txt "$requestObject = RequestObjectData::from([" ++ 10 :: ind ++
    txt "    'protocol' => VendProtocol::VERSION," ++ 10 :: ind ++
    txt "    'id' =>" ++ 32 :: i ++ 44 :: [] ++ 10 :: ind ++
    txt "    'call' => CallData::from([" ++ 10 :: ind ++
    txt "        'function' =>" ++ 32 :: m ++ 44 :: [] ++ 10 :: ind ++
    txt "        'arguments' =>" ++ 32 :: p ++ 44 :: [] ++ 10 :: ind ++
    txt "    ])," ++ 10 :: ind ++
    txt "])" ++ 59 :: R) as ->.
  { unfold nested, nested_lines. cbn [fmap list_fmap join_lines]. unfold NL.
    rewrite Hind at 1. rewrite <- !app_assoc. reflexivity. }
  repeat clean_step.
Qed.

Lemma last_rest_nothing t : find t = None → last_rest t = t.
Proof. intros Hf. unfold last_rest. by rewrite occurrences_unfold, Hf. Qed.

Lemma last_rest_found t pre g rest :
  find t = Some (pre, g, rest) → last_rest t = last_rest rest.
Proof.
  intros Hf. unfold last_rest. rewrite (occurrences_unfold t), Hf.
  destruct (occurrences rest) as [|o os] eqn:Hos; [done|].
  rewrite last_cons_cons.
  destruct (last (o :: os)) as [[[? ?] ?]|] eqn:Hl; [done|].
  by apply last_None in Hl.
Qed.

Lemma copies_clean_found t pre g rest :
  find t = Some (pre, g, rest) → copies_clean t →
  (¬ occurs marker pre ∧ ¬ occurs marker (group g 2) ∧
   ¬ occurs marker (group g 3) ∧ ¬ occurs marker (group g 4)) ∧
  copies_clean rest.
Proof.
  intros Hf [Hall Hlast]. rewrite (occurrences_unfold t), Hf in Hall. split.
  - apply (Hall pre g rest). by left.
  - split.
    + intros pre' g' rest' Hin. apply (Hall pre' g' rest'). by right.
    + by rewrite <- (last_rest_found _ _ _ _ Hf).
Qed.

(** A text without the marker has no match. *)
Lemma clean_no_match t : ¬ occurs marker t → find t = None.
Proof.
  intros Hno. destruct (find t) as [[[pre g] rest]|] eqn:Hf; [|done]. exfalso.
  apply find_call_site in Hf as (L & ind & i & m & p & HL & _ & -> & _).
  destruct (has_key_call_site L ind i m p pre rest (txt "jsonrpc") HL)
    as (q1 & q2 & _ & _ & Ho); [by left|].
  apply Hno. destruct Ho as (a & b & ->). exists (a ++ [q1]), ([q2] ++ b).
  unfold marker. rewrite <- !app_assoc. reflexivity.
Qed.

Lemma clean_output t : copies_clean t → ¬ occurs marker (transform t).
Proof.
  remember (length t) as n eqn:Hn. revert t Hn.
  induction n as [n IH] using lt_wf_ind. intros t -> Hc.
  destruct (find t) as [[[pre g] rest]|] eqn:Hf.
  - destruct (copies_clean_found _ _ _ _ Hf Hc) as ((Hpre & Hi & Hm & Hp) & Hrest).
    rewrite (transform_found _ _ _ _ Hf).
    destruct (find_call_site _ _ _ _ Hf)
      as (L & ind & i & m & p & _ & (Hne & Hws & _) & _ & ->).
    rewrite transform_request_nested.
    destruct (group_captured ind i m p) as (_ & Hg2 & Hg3 & Hg4).
    rewrite Hg2 in Hi. rewrite Hg3 in Hm. rewrite Hg4 in Hp.
    apply clean_replacement; try done.
    by apply (IH (length rest) (find_shorter _ _ _ _ Hf)).
  - rewrite (transform_nothing _ Hf).
    destruct Hc as [_ Hlast]. by rewrite (last_rest_nothing _ Hf) in Hlast.
Qed.

(** C3, as stated, fails: params that hold a call of the old shape are
    copied into the output, and the second pass rewrites that call. *)
Lemma second_pass_rewrites :
  transform (transform call_in_params) ≠ transform call_in_params.
Proof. apply longer_differs. vm_compute. discriminate. Qed.

(** C3, amended: when the texts the first pass copies into its output
    (the stretches it leaves, the ids, methods and params) do not hold
    the word jsonrpc, neither does the output, the template writing
    [protocol] where the pattern wants [jsonrpc]; the pattern then has
    no match in the output and the second pass returns it unchanged. *)
Theorem second_pass_no_op t :
  copies_clean t →
  ¬ occurs marker (transform t) ∧ occurrences (transform t) = [] ∧
  transform (transform t) = transform t.
Proof.
  intros Hc. pose proof (clean_output t Hc) as Hout.
  pose proof (clean_no_match _ Hout) as Hnone.
  split; [done|]. split.
  - by rewrite occurrences_unfold, Hnone.
  - by apply transform_nothing.
Qed.

Lemma second_pass_no_op_witness :
  ¬ occurs marker (transform sample_in) ∧
  occurrences (transform sample_in) = [] ∧
  transform (transform sample_in) = transform sample_in.
Proof.
  apply (second_pass_no_op sample_in).
  assert (occurrences sample_in
          = [([], captured (txt "    ") (txt "$id") (txt "'foo'") (txt "$args"), [])])
    as Hocc by (vm_compute; reflexivity).
  unfold copies_clean, last_rest. rewrite Hocc. split.
  - intros pre g rest Hin. apply list_elem_of_singleton in Hin.
    injection Hin as -> -> ->.
    split; [|split; [|split]]; apply not_occurs; vm_compute; reflexivity.
  - apply not_occurs. vm_compute. reflexivity.
Defined.

(** ** Two call sites in a row *)

(** X5: two well-formed call sites, each after quiet text, are both
    replaced by their nested forms, the text between them kept, the
    second untouched by the replacement of the first. *)
Lemma two_sites_replaced L1 ind1 i1 m1 p1 L2 ind2 i2 m2 p2 pre mid post :
  wf_layout L1 → well_formed_call ind1 i1 m1 p1 → quiet_before pre →
  wf_layout L2 → well_formed_call ind2 i2 m2 p2 → quiet_before mid →
  transform (pre ++ call_site L1 ind1 i1 m1 p1 ++
             mid ++ call_site L2 ind2 i2 m2 p2 ++ post)
  = pre ++ nested ind1 i1 m1 p1 ++ mid ++ nested ind2 i2 m2 p2 ++ transform post.
Proof.
  intros HL1 Hw1 Hq1 HL2 Hw2 Hq2.
  rewrite (transform_found _ _ _ _
             (find_site L1 ind1 i1 m1 p1 pre _ HL1 Hw1 Hq1)).
  rewrite (transform_found _ _ _ _
             (find_site L2 ind2 i2 m2 p2 mid post HL2 Hw2 Hq2)).
  by rewrite !transform_request_nested.
Qed.

(** ** More on what the pattern takes *)

(** X1: the pattern matches at the start of a text exactly when the
    text starts with a call site: indentation, the opening, the four
    keys in order in either kind of quotes (the two quotes of a key need
    not agree), any whitespace between the tokens, id and method without
    commas, and an optional comma before the closing. *)
Theorem pattern_matches_call_sites s :
  match_here script_flags pattern false s ≠ None ↔
  ∃ L ind i m p rest, wf_layout L ∧ captures_ok ind i m p ∧
    s = call_site L ind i m p ++ rest.
Proof.
  split.
  - destruct (match_here script_flags pattern false s) as [[rest g]|] eqn:Hm;
      [|done].
    intros _. apply match_here_elem, pattern_sound in Hm
      as (L & ind & i & m & p & HL & Hok & -> & _).
    by exists L, ind, i, m, p, rest.
  - intros (L & ind & i & m & p & rest & HL & Hok & ->).
    rewrite match_here_none. intros Hnil.
    pose proof (pattern_complete L ind i m p rest HL Hok) as Hin.
    rewrite Hnil in Hin. by apply elem_of_nil in Hin.
Qed.

(** X3: the text before a match never ends in whitespace: the first
    group takes the whole run of whitespace in front of the opening,
    line breaks and blank lines included. *)
Theorem indent_takes_whole_run t pre g rest :
  find t = Some (pre, g, rest) →
  match last pre with Some c => is_space c = false | None => True end.
Proof.
  intros Hf. destruct (last pre) as [c|] eqn:Hl; [|done].
  destruct (is_space c) eqn:Hc; [|done]. exfalso.
  apply last_Some in Hl as [pre' ->].
  destruct (search_found _ _ _ _ _ _ Hf) as (s1 & _ & Hm & Hleft).
  apply match_here_elem, pattern_sound in Hm
    as (L & ind & i & m & p & HL & (Hne & Hws & Hrest) & -> & _).
  assert (match_here script_flags pattern false
            ([c] ++ call_site L ind i m p ++ rest) = None) as Hnone.
  { by apply (Hleft pre' [c]). }
  apply match_here_none in Hnone.
  pose proof (pattern_complete L (c :: ind) i m p rest HL) as Hin.
  change (call_site L (c :: ind) i m p ++ rest)
    with ([c] ++ call_site L ind i m p ++ rest) in Hin.
  rewrite Hnone in Hin. eapply elem_of_nil, Hin.
  repeat split; try done; try apply Hrest. by constructor.
Qed.

Lemma indent_takes_whole_run_witness :
  match last (txt "<?php") with Some c => is_space c = false | None => True end.
Proof.
  apply (indent_takes_whole_run tagged_sample (txt "<?php")
           (captured (NL ++ txt "    ") (txt "$id") (txt "'foo'") (txt "$args")) []).
  vm_compute. reflexivity.
Defined.

(** X11: the method of a match is never empty and has no comma, and the
    params of a match are never empty: a call with nothing between the
    params arrow and the closing is not rewritten with empty
    arguments. *)
Theorem method_and_params_captured t pre g rest :
  find t = Some (pre, g, rest) →
  group g 3 ≠ [] ∧ (44 ∉ group g 3) ∧ group g 4 ≠ [].
Proof.
  intros (L & ind & i & m & p & _ & Hok & _ & ->)%find_call_site.
  destruct (group_captured ind i m p) as (_ & _ & -> & ->).
  destruct Hok as (_ & _ & _ & _ & Hm & Hmc & Hp). done.
Qed.

Lemma method_and_params_captured_witness :
  group (captured (txt "    ") (txt "$id") (txt "'foo'") (txt "$args")) 3 ≠ [] ∧
  (44 ∉ group (captured (txt "    ") (txt "$id") (txt "'foo'") (txt "$args")) 3) ∧
  group (captured (txt "    ") (txt "$id") (txt "'foo'") (txt "$args")) 4 ≠ [].
Proof.
  apply (method_and_params_captured sample_in []
           (captured (txt "    ") (txt "$id") (txt "'foo'") (txt "$args")) []).
  vm_compute. reflexivity.
Defined.

Lemma opening_call_site L ind i m p pre rest :
  occurs opening (pre ++ call_site L ind i m p ++ rest).
Proof.
  unfold call_site. rewrite <- !app_assoc.
  do 2 apply occurs_app_r. apply occurs_here.
Qed.

Lemma version_call_site L ind i m p pre rest :
  occurs (txt "2.0") (pre ++ call_site L ind i m p ++ rest).
Proof.
  unfold call_site, key. rewrite <- !app_assoc.
  do 11 apply occurs_app_r. apply occurs_here.
Qed.

(** X10: only calls assigned to [$requestObject] through
    [RequestObjectData::from(\[] and carrying the version 2.0 are
    rewritten: a text without that opening, or without [2.0], has no
    match and comes out as it went in. *)
Theorem other_calls_untouched t :
  ¬ occurs opening t ∨ ¬ occurs (txt "2.0") t →
  find t = None ∧ transform t = t.
Proof.
  intros Hbad. assert (find t = None) as Hnone.
  { destruct (find t) as [[[pre g] rest]|] eqn:Hf; [|done]. exfalso.
    apply find_call_site in Hf as (L & ind & i & m & p & _ & _ & -> & _).
    destruct Hbad as [Hno | Hno]; apply Hno.
    - apply opening_call_site.
    - apply version_call_site. }
  split; [done|]. by apply transform_nothing.
Qed.

Lemma other_calls_untouched_witness :
  find other_variable_call = None ∧
  transform other_variable_call = other_variable_call.
Proof.
  apply other_calls_untouched. left. apply not_occurs. vm_compute. reflexivity.
Defined.

(** ** The replacement is not a call of the old shape *)

Lemma nested_head ind i m p X :
  ∃ R, nested ind i m p ++ X
       = ind ++ opening ++ (NL ++ ind ++ txt "    ") ++ 39 :: 112 :: R.
Proof.
  exists (txt "rotocol' => VendProtocol::VERSION," ++ NL ++
          join_lines ((fun l => ind ++ l) <$> drop 2 (nested_lines i m p)) ++ X).
  unfold nested, nested_lines, opening.
  cbn [fmap list_fmap join_lines drop]. rewrite <- !app_assoc. reflexivity.
Qed.

Lemma indent_run_spaces ind :
  Forall (fun c => is_space c = true) ind →
  Forall (fun c => is_space c = true) (NL ++ ind ++ txt "    ").
Proof.
  intros Hws. apply Forall_app. split; [by repeat constructor|].
  apply Forall_app. split; [done | by repeat constructor].
Qed.

(** X9: what the callback writes is never matched where it starts,
    whatever the captured id, method and params are: after the opening
    the template goes on with the protocol key where the pattern wants
    the jsonrpc key. *)
Theorem replacement_not_matched ind i m p rest :
  ind ≠ [] → Forall (fun c => is_space c = true) ind →
  match_here script_flags pattern false (nested ind i m p ++ rest) = None.
Proof.
  intros Hne Hws. apply match_here_none.
  destruct (nested_head ind i m p rest) as [R ->].
  unfold pattern, ws_plus, opening.
  erewrite (grp_until_lit script_flags Space 1 _ ind _ 36); try done.
  rewrite (run_ws_quote script_flags _ _ 39 _ _ (indent_run_spaces ind Hws));
    [|by left].
  change (txt "jsonrpc") with (106 :: txt "sonrpc").
  by apply run_cat_lit_other.
Qed.

Lemma replacement_not_matched_witness :
  match_here script_flags pattern false
    (nested (txt "    ") (txt "$id") (txt "'foo'") (txt "$args") ++ []) = None.
Proof.
  apply replacement_not_matched; [done | by repeat constructor].
Defined.

Lemma nested_not_call_site L ind i m p X Y :
  wf_layout L → Forall (fun c => is_space c = true) ind →
  nested ind i m p ++ X ≠ call_site L ind i m p ++ Y.
Proof.
  intros [Hsp Hqt] Hws Heq.
  destruct (nested_head ind i m p X) as [R HR]. rewrite HR in Heq.
  unfold call_site, key in Heq. rewrite <- !app_assoc in Heq.
  do 2 apply app_inv_head in Heq.
  rewrite (app_assoc ind (txt "    ") _) in Heq.
  rewrite (app_assoc NL (ind ++ txt "    ") _) in Heq.
  apply split_at_first_solid in Heq as (_ & _ & Heq);
    [ | by apply indent_run_spaces | apply Hsp | done
      | by apply quote_not_space ].
  change (txt "jsonrpc") with (106 :: txt "sonrpc") in Heq.
  discriminate Heq.
Qed.

(** X2: the output differs from the input exactly when the pattern
    occurs: a pass that leaves the text as it was has matched
    nothing. *)
Theorem transform_changes_iff_occurs t :
  transform t = t ↔ occurrences t = [].
Proof.
  rewrite occurrences_unfold.
  destruct (find t) as [[[pre g] rest]|] eqn:Hf.
  - split; [|done]. intros Heq. exfalso.
    rewrite (transform_found _ _ _ _ Hf) in Heq.
    apply find_call_site in Hf
      as (L & ind & i & m & p & HL & (_ & Hws & _) & Ht & ->).
    rewrite transform_request_nested, Ht in Heq.
    apply app_inv_head in Heq.
    by apply (nested_not_call_site L ind i m p _ _ HL Hws) in Heq.
  - split; [done|]. intros _. by apply transform_nothing.
Qed.

(** ** Layouts *)

Lemma roomy_wf : wf_layout roomy.
Proof. split; intros k; [by repeat constructor | by right]. Qed.

(** X4: the output does not depend on what a layout holds: the kind of
    each quote, the whitespace after the opening, on both sides of each
    arrow, on both sides of the comma after the version, after the
    commas that end the id and the method, and between the params (or
    their comma) and the closing, and whether a comma follows the
    params. Two layouts of the same indentation, id, method and params
    give the same output. Whitespace in front of the comma that ends
    the id, the method or the params is no layout: it is part of the
    captured expression and is kept. *)
Theorem layout_normalised L1 L2 ind i m p pre post :
  wf_layout L1 → wf_layout L2 →
  well_formed_call ind i m p → calm_before pre →
  transform (pre ++ call_site L1 ind i m p ++ post)
  = transform (pre ++ call_site L2 ind i m p ++ post) ∧
  transform (pre ++ call_site L1 ind i m p ++ post)
  = pre ++ nested ind i m p ++ transform post.
Proof.
  intros HL1 HL2 Hwf Hq.
  rewrite (transform_found _ _ _ _ (find_site_calm L1 ind i m p pre post HL1 Hwf Hq)).
  rewrite (transform_found _ _ _ _ (find_site_calm L2 ind i m p pre post HL2 Hwf Hq)).
  by rewrite transform_request_nested.
Qed.

Lemma layout_normalised_witness :
  transform ([] ++ call_site (plain false)
               (txt "    ") (txt "$id") (txt "'foo'") (txt "$args") ++ [])
  = transform ([] ++ call_site roomy
                 (txt "    ") (txt "$id") (txt "'foo'") (txt "$args") ++ []) ∧
  transform ([] ++ call_site (plain false)
               (txt "    ") (txt "$id") (txt "'foo'") (txt "$args") ++ [])
  = [] ++ nested (txt "    ") (txt "$id") (txt "'foo'") (txt "$args")
       ++ transform [].
Proof.
  apply (layout_normalised (plain false) roomy).
  - apply plain_wf.
  - apply roomy_wf.
  - apply sample_well_formed.
  - apply calm_nothing.
Defined.

Lemma two_sites_replaced_witness :
  transform ([] ++ call_site (plain false)
                     (txt "    ") (txt "$id") (txt "'foo'") (txt "$args") ++
             [] ++ call_site (plain true)
                     (NL ++ txt "    ") (txt "7") (txt "'bar'") (txt "[1, 2]") ++ [])
  = [] ++ nested (txt "    ") (txt "$id") (txt "'foo'") (txt "$args") ++
    [] ++ nested (NL ++ txt "    ") (txt "7") (txt "'bar'") (txt "[1, 2]") ++
    transform [].
Proof.
  apply two_sites_replaced.
  - apply plain_wf.
  - apply sample_well_formed.
  - apply nothing_before.
  - apply plain_wf.
  - apply second_well_formed.
  - apply nothing_before.
Defined.

(** ** Every occurrence is replaced *)

Lemma two_sites_ok : Forall site_ok two_sites.
Proof.
  constructor; [apply sample_site_ok|]. constructor; [|constructor].
  split; [apply plain_wf|]. split; [apply second_well_formed | apply calm_nothing].
Qed.

(** C2: the occurrences of a text, two or more in particular, cut it
    left to right and without overlap into stretches and call sites,
    and the output is the same sequence with each call site replaced by
    the nested form it gets when transformed alone, the stretches and
    the tail as they were. And the call sites are found: in a text made
    of well-formed call sites, each after a calm stretch, the
    occurrences are these call sites in their order, followed by those
    of the tail, none lost to the replacement of an earlier one; the
    output has the nested form of each in its place. *)
Theorem all_occurrences_replaced t :
  (∃ ps tail,
     Forall2 replaced_alone (occurrences t) ps ∧
     t = apart ps tail ∧ transform t = each_replaced ps tail ∧
     transform tail = tail) ∧
  (∀ ss tail, t = laid_out ss tail → Forall site_ok ss →
     occurrences t = found ss tail ++ occurrences tail ∧
     (length ss ≤ length (occurrences t))%nat ∧
     transform t = rewritten ss (transform tail) ∧
     Forall (fun s => transform (site_text s) = site_nested s) ss).
Proof.
  split; [apply occurrences_cut|].
  intros ss tail -> Hss.
  destruct (occurrences_laid_out ss tail Hss) as [Hocc Htr].
  split; [done|]. split; [|split; [done|]].
  - rewrite Hocc, length_app.
    assert (length (found ss tail) = length ss) as ->; [|lia].
    clear. induction ss as [|s ss IH]; [done|]. cbn [found length]. by rewrite IH.
  - eapply Forall_impl; [exact Hss|].
    intros s (HL & Hwf & _). by apply site_alone.
Qed.

Lemma all_occurrences_replaced_witness :
  occurrences two_calls = found two_sites [] ++ occurrences [] ∧
  (length two_sites ≤ length (occurrences two_calls))%nat ∧
  transform two_calls = rewritten two_sites (transform []) ∧
  Forall (fun s => transform (site_text s) = site_nested s) two_sites.
Proof.
  apply (all_occurrences_replaced two_calls).
  - vm_compute. reflexivity.
  - apply two_sites_ok.
Defined.

(** ** The script and the other files *)

(** X6: on a readable, writable target the script puts the transformed
    text in the target and touches nothing else: every other path holds
    what it held (no backup, no new file), the target stays readable
    and writable, and one line is added to the output. *)
Theorem script_touches_target_only w f :
  fs w !! target = Some f → readable f = true → writable f = true →
  fs (script w).2 !! target
    = Some (File true true (transform (universal_newlines (content f)))) ∧
  (∀ p, p ≠ target → fs (script w).2 !! p = fs w !! p) ∧
  dom (fs (script w).2) = dom (fs w) ∧
  stdout (script w).2 = stdout w ++ [done_message].
Proof.
  intros Hf Hr Hw. unfold script, io_bind, read_text, write_text, print.
  rewrite Hf, Hr. cbn. rewrite Hf, Hw. cbn. rewrite Hr.
  split; [by rewrite lookup_insert_eq|]. split; [|split; [|done]].
  - intros p Hp. by rewrite lookup_insert_ne.
  - rewrite dom_insert_L. apply elem_of_dom_2 in Hf.
    by apply subseteq_union_1_L, singleton_subseteq_l.
Qed.

Lemma script_touches_target_only_witness :
  fs (script busy_world).2 !! target
    = Some (File true true
              (transform (universal_newlines (content (File true true sample_in))))) ∧
  (∀ p, p ≠ target → fs (script busy_world).2 !! p = fs busy_world !! p) ∧
  dom (fs (script busy_world).2) = dom (fs busy_world) ∧
  stdout (script busy_world).2 = stdout busy_world ++ [done_message].
Proof.
  apply (script_touches_target_only busy_world (File true true sample_in));
    vm_compute; reflexivity.
Defined.

(** ** Which way comes first *)

Lemma head_bind {A B} (l : list A) (f : A → list B) r :
  head (l ≫= f) = Some r →
  ∃ l1 a l2, l = l1 ++ a :: l2 ∧ (∀ b, b ∈ l1 → f b = []) ∧
             head (f a) = Some r.
Proof.
  induction l as [|a l IH]; [done|]. rewrite bind_cons.
  destruct (f a) as [|y ys] eqn:Hfa.
  - cbn [app]. intros (l1 & a' & l2 & -> & Hl1 & Hr)%IH.
    exists (a :: l1), a', l2. split; [done|]. split; [|done].
    intros b [-> | Hb]%elem_of_cons; auto.
  - intros Hr. exists [], a, l. split; [done|]. split.
    + intros b Hb. by apply elem_of_nil in Hb.
    + by rewrite Hfa.
Qed.

Section Order.
Context (fl : flags).

Lemma head_cat r1 r2 s g res :
  head (run fl (r1 ⨾ r2) s g) = Some res →
  ∃ s1 g1, (s1, g1) ∈ run fl r1 s g ∧ head (run fl r2 s1 g1) = Some res.
Proof.
  cbn [run]. intros (l1 & [s1 g1] & l2 & Hl & _ & Hr)%head_bind.
  exists s1, g1. split; [|done]. rewrite Hl. apply elem_of_app. right. by left.
Qed.

(** Matching does not read the groups. *)
Lemma run_any_groups r s g g0 s' g' :
  (s', g') ∈ run fl r s g → ∃ g0', (s', g0') ∈ run fl r s g0.
Proof.
  revert s g g0 s' g'.
  induction r as [l|cs|gr lo hi cs|i r IH|r1 IH1 r2 IH2]; intros s g g0 s' g'.
  - rewrite run_lit_elem. intros [-> _]. exists g0. by apply run_lit_elem.
  - rewrite run_one_elem. intros (c & -> & Hc & _). exists g0.
    apply run_one_elem. by exists c.
  - rewrite run_rep_elem. intros (_ & Hw). exists g0. by apply run_rep_elem.
  - rewrite run_grp_elem. intros (w & g1 & -> & Hr & _).
    destruct (IH _ _ g0 _ _ Hr) as [g1' Hr'].
    exists (<[i := w]> g1'). apply run_grp_elem. by exists w, g1'.
  - rewrite run_cat_elem. intros (s1 & g1 & H1 & H2).
    destruct (IH1 _ _ g0 _ _ H1) as [g1' H1'].
    destruct (IH2 _ _ g1' _ _ H2) as [g2' H2'].
    exists g2'. apply run_cat_elem. by exists s1, g1'.
Qed.

Lemma run_nil_any_groups r s g g0 : run fl r s g = [] → run fl r s g0 = [].
Proof.
  intros Hnil. destruct (run fl r s g0) as [|[s' g'] l] eqn:Hr; [done|].
  destruct (run_any_groups r s g0 g s' g') as [g'' Hin].
  { rewrite Hr. by left. }
  rewrite Hnil in Hin. by apply elem_of_nil in Hin.
Qed.

(** The way that comes first after a greedy run of whitespace starts
    where no further blank could have been skipped with success. *)
Lemma ws_star_head r x g res :
  head (run fl (ws_star ⨾ r) x g) = Some res →
  ∃ w y, x = w ++ y ∧ Forall (fun c => is_space c = true) w ∧
    head (run fl r y g) = Some res ∧
    (∀ c y', y = c :: y' → is_space c = true →
       run fl (ws_star ⨾ r) y' g = []).
Proof.
  induction x as [|c x IH].
  - rewrite run_ws_star_stop by done. intros Hr.
    exists [], []. repeat split; auto. intros; discriminate.
  - destruct (is_space c) eqn:Hc.
    + rewrite run_ws_star_cons by done.
      destruct (run fl (ws_star ⨾ r) x g) as [|st l] eqn:Hx.
      * cbn [app]. intros Hr. exists [], (c :: x). repeat split; auto.
        intros c' y' [= <- <-] _. done.
      * intros Hr. destruct IH as (w & y & -> & Hw & Hy & Hcond); [done|].
        exists (c :: w), y. repeat split; auto.
    + rewrite run_ws_star_stop by done. intros Hr.
      exists [], (c :: x). repeat split; auto.
      intros c' y' [= <- <-] Hc'. congruence.
Qed.

(** After greedy whitespace a group never starts with a blank it could
    have left to the whitespace. *)
Lemma ws_group_head k gr cs r x g0 res :
  head (run fl (ws_star ⨾ Grp k (Rep gr 1 None cs) ⨾ r) x g0) = Some res →
  ∃ w wk tail, x = w ++ wk ++ tail ∧ res ∈ run fl r tail (<[k := wk]> g0) ∧
    (∀ c w', wk = c :: w' → is_space c = true → w' = []).
Proof.
  intros (w & y & -> & Hw & Hy & Hcond)%ws_star_head.
  destruct res as [rest g].
  apply head_Some_elem_of, run_cat_elem in Hy as (s1 & g1 & H1 & Hres).
  apply grp_rep_elem in H1 as (wk & -> & -> & Hacc & Hlen & _).
  exists w, wk, s1. split; [done|]. split; [done|].
  intros c w' -> Hc. destruct w' as [|c' w']; [done|]. exfalso.
  specialize (Hcond c ((c' :: w') ++ s1) eq_refl Hc).
  inversion Hacc as [|?? _ Hacc']; subst.
  destruct (run_any_groups r s1 _ (<[k := c' :: w']> g0) rest g Hres) as [g' Hg'].
  assert ((rest, g') ∈ run fl (ws_star ⨾ Grp k (Rep gr 1 None cs) ⨾ r)
            ((c' :: w') ++ s1) g0) as Hin.
  { apply run_cat_elem. exists ((c' :: w') ++ s1), g0. split.
    - apply ws_star_elem. split; [done|]. by exists [].
    - apply run_cat_elem. exists s1, (<[k := c' :: w']> g0). split; [|done].
      apply grp_rep_elem. exists (c' :: w').
      repeat split; auto; try done. simpl. lia. }
  rewrite Hcond in Hin. by apply elem_of_nil in Hin.
Qed.

End Order.

Tactic Notation "descend" hyp(H) integer(n) :=
  do n (apply head_cat in H as (? & ? & _ & H)).

Ltac read_group k :=
  unfold group; rewrite ?lookup_insert_ne by done; rewrite lookup_insert_eq;
  cbn [default from_option id].

Lemma id_not_padded s rest g c w' :
  head (run script_flags pattern s ∅) = Some (rest, g) →
  group g 2 = c :: w' → is_space c = true → w' = [].
Proof.
  intros H. unfold pattern, no_comma_plus, any_plus_lazy in H.
  descend H 20.
  apply ws_group_head in H as (w & wk & tail & _ & H & Hlead).
  next_lit H. next_ws H w7 Hw7. next_quote H q6 Hq6. next_lit H.
  next_quote H q7 Hq7. next_ws H w8 Hw8. next_lit H. next_ws H w9 Hw9.
  next_grp H m Hm Hml. next_lit H. next_ws H w10 Hw10.
  next_quote H q8 Hq8. next_lit H. next_quote H q9 Hq9.
  next_ws H w11 Hw11. next_lit H. next_ws H w12 Hw12.
  next_grp H p Hp Hpl.
  let H1 := fresh "H1" in
  next_item H H1; apply comma_opt_elem in H1 as (-> & tc & ->).
  next_ws H w13 Hw13. apply run_lit_elem in H as [-> ->].
  read_group 2%nat. apply Hlead.
Qed.

Lemma method_not_padded s rest g c w' :
  head (run script_flags pattern s ∅) = Some (rest, g) →
  group g 3 = c :: w' → is_space c = true → w' = [].
Proof.
  intros H. unfold pattern, no_comma_plus, any_plus_lazy in H.
  descend H 29.
  apply ws_group_head in H as (w & wk & tail & _ & H & Hlead).
  next_lit H. next_ws H w10 Hw10.
  next_quote H q8 Hq8. next_lit H. next_quote H q9 Hq9.
  next_ws H w11 Hw11. next_lit H. next_ws H w12 Hw12.
  next_grp H p Hp Hpl.
  let H1 := fresh "H1" in
  next_item H H1; apply comma_opt_elem in H1 as (-> & tc & ->).
  next_ws H w13 Hw13. apply run_lit_elem in H as [-> ->].
  read_group 3%nat. apply Hlead.
Qed.

Lemma params_not_padded s rest g c w' :
  head (run script_flags pattern s ∅) = Some (rest, g) →
  group g 4 = c :: w' → is_space c = true → w' = [].
Proof.
  intros H. unfold pattern, no_comma_plus, any_plus_lazy in H.
  descend H 38.
  apply ws_group_head in H as (w & wk & tail & _ & H & Hlead).
  let H1 := fresh "H1" in
  next_item H H1; apply comma_opt_elem in H1 as (-> & tc & ->).
  next_ws H w13 Hw13. apply run_lit_elem in H as [-> ->].
  read_group 4%nat. apply Hlead.
Qed.

Lemma find_head t pre g rest :
  find t = Some (pre, g, rest) →
  ∃ s, t = pre ++ s ∧ head (run script_flags pattern s ∅) = Some (rest, g).
Proof.
  intros (s1 & -> & Hm & _)%search_found. rewrite match_here_head in Hm.
  by exists s1.
Qed.

(** X8: the whitespace after an arrow goes to the pattern, not to the
    group: no captured id, method or params starts with a blank, unless
    it is one whitespace character and nothing else. *)
Theorem captures_not_padded t pre g rest k c w' :
  find t = Some (pre, g, rest) → k ∈ [2; 3; 4]%nat →
  group g k = c :: w' → is_space c = true → w' = [].
Proof.
  intros (s & _ & Hh)%find_head Hk.
  rewrite !elem_of_cons, elem_of_nil in Hk.
  destruct Hk as [-> | [-> | [-> | []]]].
  - by apply (id_not_padded s rest).
  - by apply (method_not_padded s rest).
  - by apply (params_not_padded s rest).
Qed.

Lemma captures_not_padded_witness : @nil N = [].
Proof.
  apply (captures_not_padded blank_id_call []
           (captured (txt "    ") (txt " ") (txt "'foo'") (txt "$args")) []
           2%nat 32 []).
  - vm_compute. reflexivity.
  - by left.
  - reflexivity.
  - reflexivity.
Defined.

Section Lazy.
Context (fl : flags).

(** A lazy repetition offers its ways shortest first. *)
Lemma reps_lazy_sorted lo hi cs x :
  StronglySorted (fun a b : text => (length b < length a)%nat)
                 (reps fl false lo hi cs x).
Proof.
  revert lo hi. induction x as [|c x IH]; intros lo hi.
  - cbn [reps]. rewrite app_nil_r. destruct lo; repeat constructor.
  - cbn [reps]. apply StronglySorted_app. split; [|split].
    + intros a b Ha Hb. destruct lo; [|by apply elem_of_nil in Ha].
      apply list_elem_of_singleton in Ha as ->.
      destruct (accepts fl cs c && negb (bool_decide (hi = Some O)));
        [|by apply elem_of_nil in Hb].
      apply reps_short in Hb. simpl. lia.
    + destruct lo; repeat constructor.
    + destruct (accepts fl cs c && negb (bool_decide (hi = Some O)));
        [apply IH | constructor].
Qed.

(** The way that comes first after a lazy group has the group as short
    as it can be: what follows fails after every shorter run. *)
Lemma lazy_group_head k cs r x g0 rest g :
  head (run fl (Grp k (Rep false 1 None cs) ⨾ r) x g0) = Some (rest, g) →
  ∃ wk tail, x = wk ++ tail ∧ (rest, g) ∈ run fl r tail (<[k := wk]> g0) ∧
    (∀ w1 w2 g', wk = w1 ++ w2 → w1 ≠ [] → w2 ≠ [] →
       run fl r (w2 ++ tail) g' = []).
Proof.
  rewrite run_grp_cat. intros (l1 & a & l2 & Hl & Hl1 & Hr)%head_bind.
  assert (a ∈ reps fl false 1 None cs x) as Ha.
  { rewrite Hl. apply elem_of_app. right. by left. }
  apply reps_elem in Ha as (wk & -> & Hacc & Hlen & _).
  rewrite take_consumed in Hr. exists wk, a. split; [done|].
  split; [by apply head_Some_elem_of|].
  intros w1 w2 g' -> Hw1 Hw2.
  apply Forall_app in Hacc as [Hacc1 _].
  assert ((w2 ++ a) ∈ reps fl false 1 None cs ((w1 ++ w2) ++ a)) as Hin.
  { apply reps_elem. exists w1. rewrite <- app_assoc.
    repeat split; auto; [by apply nonempty_length | done]. }
  rewrite Hl in Hin. apply elem_of_app in Hin as [Hin | Hin].
  - apply Hl1 in Hin. by eapply run_nil_any_groups.
  - exfalso. pose proof (reps_lazy_sorted 1 None cs ((w1 ++ w2) ++ a)) as Hs.
    rewrite Hl in Hs. apply StronglySorted_app in Hs as (_ & _ & Hs).
    apply elem_of_cons in Hin as [Heq | Hin].
    + apply (f_equal length) in Heq. rewrite length_app in Heq.
      destruct w2; [done | simpl in Heq; lia].
    + apply StronglySorted_cons in Hs as [Hall _].
      rewrite Forall_forall in Hall. apply Hall in Hin.
      rewrite length_app in Hin. lia.
Qed.

End Lazy.

(** X7: the params end at the first closing: in the params of a match
    the text of the closing can only stand at the very start (the group
    takes at least one character), never further in. *)
Theorem params_end_at_first_closing t pre g rest a b :
  find t = Some (pre, g, rest) →
  group g 4 = a ++ closing ++ b → a = [].
Proof.
  intros (s & _ & H)%find_head.
  unfold pattern, no_comma_plus, any_plus_lazy in H.
  descend H 39.
  apply lazy_group_head in H as (wk & tail & _ & H & Hmin).
  let H1 := fresh "H1" in
  next_item H H1; apply comma_opt_elem in H1 as (-> & tc & ->).
  next_ws H w13 Hw13. apply run_lit_elem in H as [-> ->].
  read_group 4%nat. intros ->.
  destruct a as [|c a]; [done|]. exfalso.
  specialize (Hmin (c :: a) (closing ++ b) ∅ eq_refl).
  destruct (terminator_here script_flags false []
              (b ++ (if tc then txt "," else []) ++ w13 ++ txt "]);" ++ rest) ∅)
    as [l' Hl']; [done|].
  unfold terminator in Hl'. rewrite !app_nil_l in Hl'.
  rewrite <- app_assoc in Hmin. rewrite Hmin in Hl'; [done..|].
  by destruct b.
Qed.

Lemma params_end_at_first_closing_witness : @nil N = [].
Proof.
  apply (params_end_at_first_closing closing_first_call []
           (captured (txt "    ") (txt "1") (txt "'foo'") (txt "]);x")) []
           [] (txt "x")).
  - vm_compute. reflexivity.
  - reflexivity.
Defined.
